(** * Email channel core: dedupe cache, reply threading, inbound message ids

    A shallow embedding of the pure logic of the email channel plugin:
    - [createDedupeCache] (email/monitor.ts): the time- and size-bounded
      cache of recently seen inbound message keys;
    - [resolveReplyRecipients] and [extractLatestContent]
      (email/threading.ts);
    - [extractInboundMessageIds], the allow-list gate of
      [processInboundEmail] and the handler of [createEmailInboundHandler]
      (email/monitor.ts);
    - [escapeHtml] and [stripEmailQuotes] (email/html.ts),
      [resolveEmailAccount] (email/accounts.ts), [extractBodyParts] and
      [extractAttachments] (email/client.ts).

    JavaScript strings are sequences of UTF-16 code units and are modelled as
    lists of [N]; JavaScript numbers that hold millisecond timestamps and
    sizes are modelled as [Z] (the integral values the monitor passes). *)

From Stdlib Require Import String Ascii.
From Stdlib Require Import List ZArith NArith Bool Lia Sorted.
Import ListNotations.

(* ===================================================================== *)
(** * Part I: definitions                                                 *)
(* ===================================================================== *)

(** ** JavaScript strings *)

Module JsString.

Definition code_unit := N.
Definition jsstring := list code_unit.

(** A string literal of the source, read as its code units. *)
Definition lit (s : string) : jsstring :=
  map N_of_ascii (list_ascii_of_string s).

Definition eqb (a b : jsstring) : bool :=
  if list_eq_dec N.eq_dec a b then true else false.

(** [!s] for a string: only the empty string is falsy. *)
Definition falsy (s : jsstring) : bool :=
  match s with [] => true | _ :: _ => false end.

(** ECMAScript LineTerminator: LF, CR, LS, PS. *)
Definition is_line_terminator (c : code_unit) : bool :=
  ((c =? 10) || (c =? 13) || (c =? 8232) || (c =? 8233))%N.

(** ECMAScript WhiteSpace joined with LineTerminator: the set that
    [String.prototype.trim] strips and that [\s] matches. *)
Definition is_space (c : code_unit) : bool :=
  ((c =? 9) || (c =? 10) || (c =? 11) || (c =? 12) || (c =? 13) || (c =? 32)
   || (c =? 160) || (c =? 5760) || ((8192 <=? c) && (c <=? 8202))
   || (c =? 8232) || (c =? 8233) || (c =? 8239) || (c =? 8287)
   || (c =? 12288) || (c =? 65279))%N.

Fixpoint trimStart (s : jsstring) : jsstring :=
  match s with
  | [] => []
  | c :: s' => if is_space c then trimStart s' else s
  end.

Definition trimEnd (s : jsstring) : jsstring := rev (trimStart (rev s)).

Definition trim (s : jsstring) : jsstring := trimEnd (trimStart s).

(** [s.split("\n")]: never the empty list; the empty string gives [[""]]. *)
Fixpoint split_nl (s : jsstring) : list jsstring :=
  match s with
  | [] => [[]]
  | c :: s' =>
      if (c =? 10)%N then [] :: split_nl s'
      else match split_nl s' with
           | [] => [[c]]
           | l :: ls => (c :: l) :: ls
           end
  end.

(** [lines.join("\n")]. *)
Fixpoint join_nl (ls : list jsstring) : jsstring :=
  match ls with
  | [] => []
  | [l] => l
  | l :: ls' => l ++ 10%N :: join_nl ls'
  end.

(** [s.startsWith(p)]. *)
Fixpoint startsWith (p s : jsstring) : bool :=
  match p, s with
  | [], _ => true
  | _ :: _, [] => false
  | a :: p', b :: s' => (a =? b)%N && startsWith p' s'
  end.

(** The string is empty or starts with a character that is not white
    space. *)
Definition starts_solid (s : jsstring) : Prop :=
  match s with
  | [] => True
  | c :: _ => is_space c = false
  end.

End JsString.

Import JsString.

(** ** The dedupe cache of monitor.ts *)

Module Dedupe.

(** The argument of [createDedupeCache]. *)
Record options := { options_ttlMs : Z; options_maxSize : Z }.

(** [Math.max(0, options.ttlMs)]. *)
Definition ttlMs (o : options) : Z := Z.max 0 (options_ttlMs o).

(** [Math.max(0, Math.floor(options.maxSize))]; the floor of an integer is
    the integer. *)
Definition maxSize (o : options) : Z := Z.max 0 (options_maxSize o).

(** [Map<string, number>]: the entries in insertion order, oldest first. *)
Definition cache := list (jsstring * Z).

Definition map_get (key : jsstring) (c : cache) : option Z :=
  match find (fun e => JsString.eqb (fst e) key) c with
  | Some e => Some (snd e)
  | None => None
  end.

Definition map_delete (key : jsstring) (c : cache) : cache :=
  filter (fun e => negb (JsString.eqb (fst e) key)) c.

(** [Map.prototype.set]: an existing key keeps its position, a new key goes
    last. *)
Fixpoint map_set (key : jsstring) (v : Z) (c : cache) : cache :=
  match c with
  | [] => [(key, v)]
  | e :: c' =>
      if JsString.eqb (fst e) key then (key, v) :: c'
      else e :: map_set key v c'
  end.

Definition map_size (c : cache) : Z := Z.of_nat (length c).

(** [cache.keys().next().value]. *)
Definition first_key (c : cache) : option jsstring :=
  match c with
  | [] => None
  | e :: _ => Some (fst e)
  end.

Definition touch (key : jsstring) (now : Z) (c : cache) : cache :=
  map_set key now (map_delete key c).

(** The [for ... of cache] loop of [prune]: every entry older than the
    cutoff is deleted. *)
Definition expire (cutoff : Z) (c : cache) : cache :=
  filter (fun e => negb (snd e <? cutoff)%Z) c.

(** The [while (cache.size > maxSize)] loop of [prune].  Each round deletes
    the oldest key, so [length c] rounds are always enough (see
    [evict_settled]). *)
Fixpoint evict (rounds : nat) (limit : Z) (c : cache) : cache :=
  match rounds with
  | O => c
  | S rounds' =>
      if (map_size c >? limit)%Z then
        match first_key c with
        | None => c
        | Some oldestKey =>
            if falsy oldestKey then c
            else evict rounds' limit (map_delete oldestKey c)
        end
      else c
  end.

Definition prune (o : options) (now : Z) (c : cache) : cache :=
  let c1 := if (ttlMs o >? 0)%Z then expire (now - ttlMs o) c else c in
  evict (length c1) (maxSize o) c1.

(** [check(key, now)]: the answer and the cache afterwards.  [None] is an
    [undefined] or [null] key. *)
Definition check (o : options) (key : option jsstring) (now : Z) (c : cache)
  : bool * cache :=
  match key with
  | None => (false, c)
  | Some k =>
      if falsy k then (false, c)
      else
        let fresh existing :=
          ((ttlMs o <=? 0) || (now - existing <? ttlMs o))%Z in
        match map_get k c with
        | Some existing =>
            if fresh existing then (true, touch k now c)
            else (false, prune o now (touch k now c))
        | None => (false, prune o now (touch k now c))
        end
  end.

(** A sequence of [check] calls on one cache, oldest call first. *)
Fixpoint run (o : options) (calls : list (option jsstring * Z)) (c : cache)
  : cache :=
  match calls with
  | [] => c
  | (key, now) :: calls' => run o calls' (snd (check o key now c))
  end.

(** The calls [check(key, time)] for a list of keys with their times. *)
Definition calls_of (inserts : list (jsstring * Z))
  : list (option jsstring * Z) :=
  map (fun e => (Some (fst e), snd e)) inserts.

(** Time [t] is inside the retention window that opened at [since]: expiry
    is disabled or less than [ttlMs] has passed. *)
Definition in_window (o : options) (since t : Z) : Prop :=
  (ttlMs o <= 0 \/ t - since < ttlMs o)%Z.

(** *** Predicates on caches used by the properties *)

(** No entry of [c] is stored under [key]. *)
Definition absent (key : jsstring) (c : cache) : Prop :=
  Forall (fun e => fst e <> key) c.

(** Every stored key is a truthy (non-empty) string. *)
Definition keys_truthy (c : cache) : Prop :=
  Forall (fun e => falsy (fst e) = false) c.

(** The answers of a sequence of [check] calls, oldest call first. *)
Fixpoint answers (o : options) (calls : list (option jsstring * Z))
    (c : cache) : list bool :=
  match calls with
  | [] => []
  | (key, now) :: calls' =>
      fst (check o key now c) :: answers o calls' (snd (check o key now c))
  end.

(** Each time of the list is inside the window opened by the one before
    it, starting from [since]. *)
Fixpoint chained (o : options) (since : Z) (times : list Z) : Prop :=
  match times with
  | [] => True
  | t :: times' => in_window o since t /\ chained o t times'
  end.

(** No two of the times are further apart than the retention time, so that
    an entry recorded at one of them is not expired at another. *)
Definition one_span (o : options) (times : list Z) : Prop :=
  (ttlMs o <= 0)%Z
  \/ forall a b, In a times -> In b times -> (b - a <= ttlMs o)%Z.

End Dedupe.

(** ** Regular expressions of the source *)

Module Regex.

(** The fragment of ECMAScript patterns that threading.ts uses: character
    classes, sequence, alternation and greedy repetition.  These patterns
    have no captures, look-arounds or back-references, so [RegExp.test]
    answers whether some string of the pattern's language sits at the
    anchored position; the matcher below decides that with derivatives. *)
Inductive regex : Type :=
| Never : regex
| Empty : regex
| Class : (code_unit -> bool) -> regex
| Seq : regex -> regex -> regex
| Alt : regex -> regex -> regex
| Star : regex -> regex.

Fixpoint nullable (r : regex) : bool :=
  match r with
  | Never => false
  | Empty => true
  | Class _ => false
  | Seq r1 r2 => nullable r1 && nullable r2
  | Alt r1 r2 => nullable r1 || nullable r2
  | Star _ => true
  end.

Fixpoint deriv (c : code_unit) (r : regex) : regex :=
  match r with
  | Never => Never
  | Empty => Never
  | Class p => if p c then Empty else Never
  | Seq r1 r2 =>
      if nullable r1 then Alt (Seq (deriv c r1) r2) (deriv c r2)
      else Seq (deriv c r1) r2
  | Alt r1 r2 => Alt (deriv c r1) (deriv c r2)
  | Star r1 => Seq (deriv c r1) (Star r1)
  end.

(** [/^r$/.test(s)]: the whole string is in the language. *)
Fixpoint test_whole (r : regex) (s : jsstring) : bool :=
  match s with
  | [] => nullable r
  | c :: s' => test_whole (deriv c r) s'
  end.

(** [/^r/.test(s)]: some prefix of the string is in the language. *)
Fixpoint test_prefix (r : regex) (s : jsstring) : bool :=
  nullable r ||
  match s with
  | [] => false
  | c :: s' => test_prefix (deriv c r) s'
  end.

(** The language of a pattern. *)
Inductive lang : regex -> jsstring -> Prop :=
| lang_Empty : lang Empty []
| lang_Class p c : p c = true -> lang (Class p) [c]
| lang_Seq r1 r2 s1 s2 : lang r1 s1 -> lang r2 s2 -> lang (Seq r1 r2) (s1 ++ s2)
| lang_Alt_l r1 r2 s : lang r1 s -> lang (Alt r1 r2) s
| lang_Alt_r r1 r2 s : lang r2 s -> lang (Alt r1 r2) s
| lang_Star_nil r : lang (Star r) []
| lang_Star_cons r s1 s2 :
    lang r s1 -> lang (Star r) s2 -> lang (Star r) (s1 ++ s2).

(** Case folding of the [i] flag (without [u]) as far as it matters against
    ASCII pattern characters: [a-z] fold to [A-Z]; a code unit from 128 up
    never folds to an ASCII one, so it is left alone. *)
Definition canonicalize (c : code_unit) : code_unit :=
  if ((97 <=? c) && (c <=? 122))%N then (c - 32)%N else c.

(** A pattern character, without and with the [i] flag. *)
Definition chr (c : code_unit) : regex := Class (N.eqb c).

Definition chr_i (c : code_unit) : regex :=
  Class (fun x => (canonicalize x =? canonicalize c)%N).

(** A literal run of pattern characters under the [i] flag. *)
Definition str_i (s : jsstring) : regex :=
  fold_right (fun c r => Seq (chr_i c) r) Empty s.

(** [.] without the [s] flag, and [\s]. *)
Definition dot : regex := Class (fun c => negb (is_line_terminator c)).
Definition space : regex := Class is_space.

(** [r+] and [r{2,}]. *)
Definition plus (r : regex) : regex := Seq r (Star r).
Definition two_or_more (r : regex) : regex := Seq r (Seq r (Star r)).

End Regex.

(** ** Reply threading (threading.ts) *)

(** [String.prototype.toLowerCase] follows the Unicode case tables; the
    properties below hold for any such function, so it is an interface. *)
Class JsCase := { toLowerCase : jsstring -> jsstring }.

(** Lower-casing restricted to ASCII letters, which is what
    [toLowerCase] does on ASCII strings; used to run examples. *)
Definition ascii_lower (c : code_unit) : code_unit :=
  if ((65 <=? c) && (c <=? 90))%N then (c + 32)%N else c.

Definition AsciiCase : JsCase := {| toLowerCase := map ascii_lower |}.

Module Threading.
Import Regex.

Record ReplyRecipients := { to : list jsstring; cc : list jsstring }.

Record params := {
  botEmail : jsstring;
  originalFrom : jsstring;
  originalTo : list jsstring;
  originalCc : list jsstring;
  preserveCc : bool
}.

Section Recipients.
Context {C : JsCase}.

(** The predicate of the four [filter] calls:
    [addr.toLowerCase() !== botLower &&
     addr.toLowerCase() !== originalFrom.toLowerCase()]. *)
Definition not_bot_nor_sender (botLower originalFrom addr : jsstring) : bool :=
  negb (JsString.eqb (toLowerCase addr) botLower)
  && negb (JsString.eqb (toLowerCase addr) (toLowerCase originalFrom)).

(** The body of [if (botInTo) { ... }]. *)
Definition reply_bot_in_to (p : params) (botLower : jsstring)
  : ReplyRecipients :=
  {| to := [originalFrom p];
     cc := if preserveCc p
           then filter (not_bot_nor_sender botLower (originalFrom p))
                  (originalTo p)
                ++ filter (not_bot_nor_sender botLower (originalFrom p))
                     (originalCc p)
           else [] |}.

(** The code after the [if]: the bot was in Cc. *)
Definition reply_bot_in_cc (p : params) (botLower : jsstring)
  : ReplyRecipients :=
  {| to := [originalFrom p];
     cc := if preserveCc p
           then filter (not_bot_nor_sender botLower (originalFrom p))
                  (originalTo p)
                ++ filter (not_bot_nor_sender botLower (originalFrom p))
                     (originalCc p)
           else [] |}.

Definition resolveReplyRecipients (p : params) : ReplyRecipients :=
  let botLower := toLowerCase (botEmail p) in
  let botInTo :=
    existsb (fun addr => JsString.eqb (toLowerCase addr) botLower)
      (originalTo p) in
  if botInTo then reply_bot_in_to p botLower
  else reply_bot_in_cc p botLower.

(** Two addresses are the same up to letter case. *)
Definition same_address (a b : jsstring) : Prop :=
  toLowerCase a = toLowerCase b.

Definition same_addressb (a b : jsstring) : bool :=
  JsString.eqb (toLowerCase a) (toLowerCase b).

(** The single formula of the specification: To is the sender; Cc is empty,
    or original To followed by original Cc without the bot and the sender. *)
Definition reply_formula (p : params) : ReplyRecipients :=
  {| to := [originalFrom p];
     cc := if preserveCc p
           then filter (fun addr => negb (same_addressb addr (botEmail p))
                                    && negb (same_addressb addr
                                               (originalFrom p)))
                  (originalTo p ++ originalCc p)
           else [] |}.

End Recipients.

(** [/^On .+ wrote:$/i], [/^-{2,}\s*Original Message/i] and [/^_{2,}$/]. *)
Definition re_on_wrote : regex :=
  Seq (str_i (lit "On ")) (Seq (plus dot) (str_i (lit " wrote:"))).

Definition re_original_message : regex :=
  Seq (two_or_more (chr_i 45%N))
      (Seq (Star space) (str_i (lit "Original Message"))).

Definition re_underscores : regex := two_or_more (chr 95%N).

(** The [for (const line of lines)] loop, with [result] as it stands. *)
Fixpoint scan (lines : list jsstring) (result : list jsstring)
  : list jsstring :=
  match lines with
  | [] => result
  | line :: rest =>
      if test_whole re_on_wrote (trim line) then result
      else if test_prefix re_original_message (trim line) then result
      else if test_whole re_underscores (trim line) then result
      else if startsWith (lit ">") line then scan rest result
      else scan rest (result ++ [line])
  end.

Definition extractLatestContent (bodyText : jsstring) : jsstring :=
  if falsy bodyText then []
  else trim (join_nl (scan (split_nl bodyText) [])).

(** *** The stop lines, described by their shape *)

Definition same_ignoring_case (a b : jsstring) : Prop :=
  map canonicalize a = map canonicalize b.

(** [On <something> wrote:] with at least one character, none of them a line
    terminator, in the middle. *)
Definition quote_header (s : jsstring) : Prop :=
  exists a mid b,
    s = a ++ mid ++ b
    /\ same_ignoring_case a (lit "On ")
    /\ mid <> []
    /\ Forall (fun c => is_line_terminator c = false) mid
    /\ same_ignoring_case b (lit " wrote:").

(** Two or more hyphens, any white space, [Original Message], then
    anything. *)
Definition original_message_separator (s : jsstring) : Prop :=
  exists hyphens blank words rest,
    s = hyphens ++ blank ++ words ++ rest
    /\ (2 <= length hyphens)%nat
    /\ Forall (fun c => c = 45%N) hyphens
    /\ Forall (fun c => is_space c = true) blank
    /\ same_ignoring_case words (lit "Original Message").

(** Two or more underscores and nothing else. *)
Definition underscore_divider (s : jsstring) : Prop :=
  (2 <= length s)%nat /\ Forall (fun c => c = 95%N) s.

Definition stop_shape (s : jsstring) : Prop :=
  quote_header s \/ original_message_separator s \/ underscore_divider s.

(** What the code stops at: a line whose trimmed text has a stop shape. *)
Definition stop_line (line : jsstring) : Prop := stop_shape (trim line).

(** The three [break] tests of the loop taken together. *)
Definition stops (line : jsstring) : bool :=
  test_whole re_on_wrote (trim line)
  || test_prefix re_original_message (trim line)
  || test_whole re_underscores (trim line).

Definition not_quoted (line : jsstring) : bool :=
  negb (startsWith (lit ">") line).

(** *** The algorithm as the specification words it

    The same scan with the three patterns applied to the line itself. *)
Fixpoint scan_as_specified (lines : list jsstring) (result : list jsstring)
  : list jsstring :=
  match lines with
  | [] => result
  | line :: rest =>
      if test_whole re_on_wrote line then result
      else if test_prefix re_original_message line then result
      else if test_whole re_underscores line then result
      else if startsWith (lit ">") line then scan_as_specified rest result
      else scan_as_specified rest (result ++ [line])
  end.

Definition extractLatestContent_as_specified (bodyText : jsstring)
  : jsstring :=
  trim (join_nl (scan_as_specified (split_nl bodyText) [])).

(** *** Session keys and blank lines *)

(** [`email:${accountId}:thread:${threadId}`]. *)
Definition buildEmailSessionKey (accountId threadId : jsstring) : jsstring :=
  lit "email:" ++ accountId ++ lit ":thread:" ++ threadId.

(** The string holds no colon. *)
Definition colon_free (s : jsstring) : Prop := ~ In 58%N s.

(** Only white space (line terminators included), or nothing. *)
Definition blank (s : jsstring) : Prop :=
  Forall (fun c => is_space c = true) s.

End Threading.

(** ** HTML helpers (html.ts) *)

Module Html.
Import Regex.

(** [str.replace(/c/g, repl)] for a pattern of one literal character. *)
Definition replace_all (c : code_unit) (repl : jsstring) (str : jsstring)
  : jsstring :=
  flat_map (fun x => if (x =? c)%N then repl else [x]) str.

Definition escapeHtml (str : jsstring) : jsstring :=
  replace_all 34%N (lit "&quot;")
    (replace_all 62%N (lit "&gt;")
       (replace_all 60%N (lit "&lt;")
          (replace_all 38%N (lit "&amp;") str))).

(** What one character becomes. *)
Definition escape_unit (c : code_unit) : jsstring :=
  if (c =? 38)%N then lit "&amp;"
  else if (c =? 60)%N then lit "&lt;"
  else if (c =? 62)%N then lit "&gt;"
  else if (c =? 34)%N then lit "&quot;"
  else [c].

(** The loop of [stripEmailQuotes], which html.ts writes out with the same
    three patterns as threading.ts. *)
Fixpoint strip_scan (lines : list jsstring) (result : list jsstring)
  : list jsstring :=
  match lines with
  | [] => result
  | line :: rest =>
      if test_whole Threading.re_on_wrote (trim line) then result
      else if test_prefix Threading.re_original_message (trim line)
      then result
      else if test_whole Threading.re_underscores (trim line) then result
      else if startsWith (lit ">") line then strip_scan rest result
      else strip_scan rest (result ++ [line])
  end.

Definition stripEmailQuotes (text : jsstring) : jsstring :=
  if falsy text then []
  else trim (join_nl (strip_scan (split_nl text) [])).

End Html.

(** ** Inbound handling (monitor.ts) *)

Module Monitor.

(** A value of type [unknown], as [JSON.parse] produces it.  An object is
    its own properties; numbers are never message ids, so their value is
    kept only as an integer. *)
#[local] Unset Elimination Schemes.
Inductive jsvalue : Type :=
| JUndefined : jsvalue
| JNull : jsvalue
| JBool : bool -> jsvalue
| JNumber : Z -> jsvalue
| JString : jsstring -> jsvalue
| JArray : list jsvalue -> jsvalue
| JObject : list (jsstring * jsvalue) -> jsvalue.
#[local] Set Elimination Schemes.

(** [rec.name]: the property, or [undefined]. *)
Fixpoint get_property (name : jsstring) (rec : list (jsstring * jsvalue))
  : jsvalue :=
  match rec with
  | [] => JUndefined
  | (k, v) :: rec' =>
      if JsString.eqb k name then v else get_property name rec'
  end.

(** Falsy values, non-objects and arrays are not records. *)
Definition asRecord (value : jsvalue) : option (list (jsstring * jsvalue)) :=
  match value with
  | JObject rec => Some rec
  | _ => None
  end.

Definition normalizeMessageId (raw : jsvalue) : option jsstring :=
  match raw with
  | JString s =>
      let trimmed := trim s in
      if falsy trimmed then None else Some trimmed
  | _ => None
  end.

(** [Set<string>] in insertion order, and [Set.prototype.add]. *)
Definition idset := list jsstring.

Definition set_add (id : jsstring) (target : idset) : idset :=
  if existsb (JsString.eqb id) target then target else target ++ [id].

Definition pushMessageId (target : idset) (raw : jsvalue) : idset :=
  match normalizeMessageId raw with
  | Some id => if falsy id then target else set_add id target
  | None => target
  end.

(** The body of the loop over [rec.messages]. *)
Definition pushMessage (target : idset) (message : jsvalue) : idset :=
  match asRecord message with
  | None => target
  | Some messageRec =>
      pushMessageId
        (pushMessageId target (get_property (lit "messageId") messageRec))
        (get_property (lit "id") messageRec)
  end.

Definition collectMessageIdsFromNode (target : idset) (node : jsvalue)
  : idset :=
  match asRecord node with
  | None => target
  | Some rec =>
      let t1 := pushMessageId target (get_property (lit "messageId") rec) in
      let t2 := pushMessageId t1 (get_property (lit "id") rec) in
      let t3 :=
        match get_property (lit "messageIds") rec with
        | JArray messageIds => fold_left pushMessageId messageIds t2
        | _ => t2
        end in
      match get_property (lit "messages") rec with
      | JArray messages => fold_left pushMessage messages t3
      | _ => t3
      end
  end.

(** [Array.from(ids)] is the set's insertion order. *)
Definition extractInboundMessageIds (payload : jsvalue) : list jsstring :=
  let ids := collectMessageIdsFromNode [] payload in
  match asRecord payload with
  | Some rec => collectMessageIdsFromNode ids (get_property (lit "data") rec)
  | None => ids
  end.

(** *** Where ids are looked for

    The payload is read here as the data it is, without the functions of
    the code: [field] is the value an object has under a name
    ([undefined] when it has none) and [elements] are the elements of an
    array (none for any other value). *)
Definition field (name : jsstring) (fields : list (jsstring * jsvalue))
  : jsvalue :=
  match find (fun kv => JsString.eqb (fst kv) name) fields with
  | Some kv => snd kv
  | None => JUndefined
  end.

Definition elements (value : jsvalue) : list jsvalue :=
  match value with
  | JArray items => items
  | _ => []
  end.

(** The candidate values of a node, in the order the code visits them: the
    [messageId] and [id] of an object, the elements of its [messageIds]
    array, and the [messageId] and [id] of each object in its [messages]
    array.  A value that is not an object has no candidates. *)
Definition message_candidates (message : jsvalue) : list jsvalue :=
  match message with
  | JObject m => [field (lit "messageId") m; field (lit "id") m]
  | _ => []
  end.

Definition node_candidates (node : jsvalue) : list jsvalue :=
  match node with
  | JObject rec =>
      [field (lit "messageId") rec; field (lit "id") rec]
      ++ elements (field (lit "messageIds") rec)
      ++ flat_map message_candidates (elements (field (lit "messages") rec))
  | _ => []
  end.

(** The payload itself and its [data] field. *)
Definition candidates (payload : jsvalue) : list jsvalue :=
  node_candidates payload
  ++ match payload with
     | JObject rec => node_candidates (field (lit "data") rec)
     | _ => []
     end.

(** A candidate yields the id [id]: it is a string whose trimmed text is
    [id] and is not empty. *)
Definition yields (raw : jsvalue) (id : jsstring) : Prop :=
  exists s, raw = JString s /\ trim s = id /\ id <> [].

(** *** The sender gate of [processInboundEmail] *)

(** [DmPolicy] of the plugin SDK. *)
Inductive DmPolicy : Type := pairing | allowlist | open | disabled.

Definition DmPolicy_eqb (a b : DmPolicy) : bool :=
  match a, b with
  | pairing, pairing | allowlist, allowlist
  | open, open | disabled, disabled => true
  | _, _ => false
  end.

(** The parts of the resolved account and of its configuration that the
    function reads; [None] is an absent optional field. *)
Record account := {
  gmailAddress : option jsstring;
  dmPolicy : option DmPolicy;
  allowFrom : option (list jsstring);
  preserveCc : option bool
}.

(** The parts of [ParsedEmail] that the function reads; of the attachments
    only their number matters before dispatch. *)
Record ParsedEmail := {
  from : jsstring;
  to : list jsstring;
  cc : list jsstring;
  bodyText : jsstring;
  bodyHtml : jsstring;
  attachments : nat
}.

(** How far a call of [processInboundEmail] gets: one of its four early
    returns, or past them, on the way to the reply dispatcher with the body
    for the agent ([BodyForAgent] and [CommandBody]:
    [latestContent || bodyText]) and the reply recipients.  What the
    function calls after its last early return (attachment download,
    routing, session update, the dispatcher itself) is outside this model;
    those calls may throw, which the handler catches. *)
Inductive outcome : Type :=
| FromSelf : outcome
| PolicyDisabled : outcome
| NotInAllowFrom : outcome
| NothingToProcess : outcome
| Dispatched : jsstring -> Threading.ReplyRecipients -> outcome.

Definition dispatched (r : outcome) : bool :=
  match r with
  | Dispatched _ _ => true
  | _ => false
  end.

Definition includes (x : jsstring) (l : list jsstring) : bool :=
  existsb (JsString.eqb x) l.

Section Inbound.
Context {C : JsCase}.

(** [htmlToPlainText] of email/html.ts and [client.userEmail]. *)
Variable htmlToPlainText : jsstring -> jsstring.
Variable userEmail : jsstring.

(** [account.gmailAddress?.toLowerCase() ?? client.userEmail.toLowerCase()]. *)
Definition bot_address (a : account) : jsstring :=
  match gmailAddress a with
  | Some g => toLowerCase g
  | None => toLowerCase userEmail
  end.

(** [account.config.dmPolicy ?? "allowlist"]. *)
Definition policy_of (a : account) : DmPolicy :=
  match dmPolicy a with Some p => p | None => allowlist end.

(** [(account.config.allowFrom ?? []).map((e) => e.toLowerCase())]. *)
Definition allowed_senders (a : account) : list jsstring :=
  map toLowerCase (match allowFrom a with Some l => l | None => [] end).

Definition processInboundEmail (a : account) (email : ParsedEmail) : outcome :=
  let botEmail := bot_address a in
  if JsString.eqb (toLowerCase (from email)) botEmail then FromSelf
  else
    let policy := policy_of a in
    let allowed := allowed_senders a in
    if DmPolicy_eqb policy disabled then PolicyDisabled
    else if negb (DmPolicy_eqb policy open)
            && (0 <? length allowed)%nat
            && negb (includes (lit "*") allowed)
            && negb (includes (toLowerCase (from email)) allowed)
    then NotInAllowFrom
    else
      let text :=
        if falsy (bodyText email) && negb (falsy (bodyHtml email))
        then htmlToPlainText (bodyHtml email)
        else bodyText email in
      let latestContent := Threading.extractLatestContent text in
      if falsy latestContent && (attachments email =? 0)%nat
      then NothingToProcess
      else
        Dispatched (if falsy latestContent then text else latestContent)
          (Threading.resolveReplyRecipients
             {| Threading.botEmail := botEmail;
                Threading.originalFrom := from email;
                Threading.originalTo := to email;
                Threading.originalCc := cc email;
                Threading.preserveCc :=
                  match preserveCc a with
                  | Some false => false
                  | _ => true
                  end |}).

End Inbound.

(** *** The inbound handler *)

(** [historyId] of the payload or, failing that, of its [data]. *)
Definition resolveInboundHistoryId (payload : jsvalue) : option jsstring :=
  match asRecord payload with
  | None => None
  | Some rec =>
      match normalizeMessageId (get_property (lit "historyId") rec) with
      | Some top => if falsy top then
                      match asRecord (get_property (lit "data") rec) with
                      | Some data =>
                          normalizeMessageId
                            (get_property (lit "historyId") data)
                      | None => None
                      end
                    else Some top
      | None =>
          match asRecord (get_property (lit "data") rec) with
          | Some data =>
              normalizeMessageId (get_property (lit "historyId") data)
          | None => None
          end
      end
  end.

(** [recentInboundMessages]: ten minutes, two thousand keys. *)
Definition RECENT_MESSAGE_TTL_MS : Z := 10 * 60000.
Definition RECENT_MESSAGE_MAX : Z := 2000.

Definition recentInboundMessages : Dedupe.options :=
  {| Dedupe.options_ttlMs := RECENT_MESSAGE_TTL_MS;
     Dedupe.options_maxSize := RECENT_MESSAGE_MAX |}.

(** [`${opts.accountId}:${messageId}`]. *)
Definition dedupe_key (accountId messageId : jsstring) : jsstring :=
  accountId ++ lit ":" ++ messageId.

(** What a request meets outside the handler: whether [getClient] gives a
    client, what [getHistory] resolves to ([None] when it rejects), whether
    [processInboundEmail] completes for a message id ([false] when it
    throws), and what [Date.now()] reads at the n-th [check] of the
    request. *)
Record surroundings := {
  client_available : bool;
  getHistory : jsstring -> option (list jsstring);
  completes : jsstring -> bool;
  clock : nat -> Z
}.

(** The answers of the handler. *)
Inductive reply : Type :=
| SkippedNoMessageId : reply
| ClientNotAvailable : reply
| SkippedDuplicate : reply
| ProcessedOk : nat -> reply
| InboundError : reply.

(** [messageIds.filter((id) => !recentInboundMessages.check(key(id)))],
    starting at the n-th clock reading: the pending ids and the cache
    afterwards. *)
Fixpoint pending_ids (o : Dedupe.options) (accountId : jsstring)
    (clock : nat -> Z) (n : nat) (messageIds : list jsstring)
    (c : Dedupe.cache) : list jsstring * Dedupe.cache :=
  match messageIds with
  | [] => ([], c)
  | messageId :: rest =>
      let r := Dedupe.check o (Some (dedupe_key accountId messageId))
                 (clock n) c in
      let rs := pending_ids o accountId clock (S n) rest (snd r) in
      (if fst r then fst rs else messageId :: fst rs, snd rs)
  end.

(** The loop [for (const messageId of pending) await processInboundEmail]:
    the ids it completed and whether it got through all of them. *)
Fixpoint process_pending (completes : jsstring -> bool)
    (pending : list jsstring) : list jsstring * bool :=
  match pending with
  | [] => ([], true)
  | messageId :: rest =>
      if completes messageId
      then let r := process_pending completes rest in
           (messageId :: fst r, snd r)
      else ([], false)
  end.

Definition is_nil {A : Type} (l : list A) : bool :=
  match l with [] => true | _ :: _ => false end.

(** [!historyId] for a [string | null]. *)
Definition no_history (historyId : option jsstring) : bool :=
  match historyId with
  | None => true
  | Some h => falsy h
  end.

(** One call of the handler that [createEmailInboundHandler] returns: the
    answer, the message ids whose processing completed, and the cache
    afterwards. *)
Definition handle (accountId : jsstring) (w : surroundings)
    (payload : jsvalue) (c : Dedupe.cache)
  : reply * list jsstring * Dedupe.cache :=
  let messageIds := extractInboundMessageIds payload in
  let historyId :=
    if is_nil messageIds then resolveInboundHistoryId payload else None in
  if is_nil messageIds && no_history historyId
  then (SkippedNoMessageId, [], c)
  else if negb (client_available w) then (ClientNotAvailable, [], c)
  else
    (* the block [if (messageIds.length === 0) { ... }]: [None] when it
       returns, else the ids to go on with *)
    let resolved :=
      if is_nil messageIds then
        match historyId with
        | Some h =>
            if falsy h then None
            else match getHistory w h with
                 | Some ids => Some ids
                 | None => Some messageIds
                 end
        | None => None
        end
      else Some messageIds in
    match resolved with
    | None => (SkippedNoMessageId, [], c)
    | Some ids =>
        if is_nil ids then (SkippedNoMessageId, [], c)
        else
          let p := pending_ids recentInboundMessages accountId (clock w)
                     0 ids c in
          if is_nil (fst p) then (SkippedDuplicate, [], snd p)
          else
            let r := process_pending (completes w) (fst p) in
            (if snd r then ProcessedOk (length (fst p)) else InboundError,
             fst r, snd p)
    end.

(** The ids of a list stamped with the clock readings of their checks. *)
Fixpoint stamped (accountId : jsstring) (clock : nat -> Z) (n : nat)
    (messageIds : list jsstring) : Dedupe.cache :=
  match messageIds with
  | [] => []
  | messageId :: rest =>
      (dedupe_key accountId messageId, clock n)
      :: stamped accountId clock (S n) rest
  end.


End Monitor.

(** ** Account resolution (accounts.ts) *)

Module Accounts.

(** The fields of [EmailAccountConfig] that account resolution and the
    inbound gate read; [None] is an absent field. *)
Record EmailAccountConfig := {
  name : option jsstring;
  enabled : option bool;
  gmailAddress : option jsstring;
  credentialsPath : option jsstring;
  tokenPath : option jsstring;
  projectId : option jsstring;
  dmPolicy : option Monitor.DmPolicy;
  allowFrom : option (list jsstring);
  preserveCc : option bool
}.

(** [cfg.channels?.email]: the channel-level fields and the [accounts]
    record; the whole is [None] when the configuration has no email
    section. *)
Record EmailConfig := {
  base : EmailAccountConfig;
  accounts : option (list (jsstring * option EmailAccountConfig))
}.

Definition no_config : EmailAccountConfig :=
  {| name := None; enabled := None; gmailAddress := None;
     credentialsPath := None; tokenPath := None; projectId := None;
     dmPolicy := None; allowFrom := None; preserveCc := None |}.

(** [accounts[accountId]]. *)
Fixpoint lookup_account (accountId : jsstring)
    (l : list (jsstring * option EmailAccountConfig))
  : option EmailAccountConfig :=
  match l with
  | [] => None
  | (k, v) :: l' =>
      if JsString.eqb k accountId then v else lookup_account accountId l'
  end.

Definition resolveAccountConfig (cfg : option EmailConfig)
    (accountId : jsstring) : option EmailAccountConfig :=
  match cfg with
  | Some email =>
      match accounts email with
      | Some l => lookup_account accountId l
      | None => None
      end
  | None => None
  end.

(** One field of [{ ...base, ...account }]. *)
Definition spread_field {A : Type} (from_base from_account : option A)
  : option A :=
  match from_account with
  | Some v => Some v
  | None => from_base
  end.

Definition mergeEmailAccountConfig (cfg : option EmailConfig)
    (accountId : jsstring) : EmailAccountConfig :=
  let b := match cfg with Some email => base email | None => no_config end in
  let a := match resolveAccountConfig cfg accountId with
           | Some account => account
           | None => no_config
           end in
  {| name := spread_field (name b) (name a);
     enabled := spread_field (enabled b) (enabled a);
     gmailAddress := spread_field (gmailAddress b) (gmailAddress a);
     credentialsPath := spread_field (credentialsPath b) (credentialsPath a);
     tokenPath := spread_field (tokenPath b) (tokenPath a);
     projectId := spread_field (projectId b) (projectId a);
     dmPolicy := spread_field (dmPolicy b) (dmPolicy a);
     allowFrom := spread_field (allowFrom b) (allowFrom a);
     preserveCc := spread_field (preserveCc b) (preserveCc a) |}.

(** [value?.trim() || undefined]. *)
Definition trimmed_or_undefined (value : option jsstring) : option jsstring :=
  match value with
  | Some s => if falsy (trim s) then None else Some (trim s)
  | None => None
  end.

(** [flag !== false]. *)
Definition not_false (flag : option bool) : bool :=
  match flag with
  | Some false => false
  | _ => true
  end.

Record ResolvedEmailAccount := {
  accountId : jsstring;
  resolved_enabled : bool;
  resolved_name : option jsstring;
  resolved_gmailAddress : option jsstring;
  resolved_credentialsPath : option jsstring;
  resolved_tokenPath : option jsstring;
  resolved_projectId : option jsstring;
  config : EmailAccountConfig
}.

Section Resolve.

(** [normalizeAccountId] of the plugin SDK. *)
Variable normalizeAccountId : option jsstring -> jsstring.

Definition resolveEmailAccount (cfg : option EmailConfig)
    (requested : option jsstring) : ResolvedEmailAccount :=
  let id := normalizeAccountId requested in
  let baseEnabled :=
    not_false (match cfg with Some email => enabled (base email)
                            | None => None end) in
  let merged := mergeEmailAccountConfig cfg id in
  let accountEnabled := not_false (enabled merged) in
  {| accountId := id;
     resolved_enabled := baseEnabled && accountEnabled;
     resolved_name := trimmed_or_undefined (name merged);
     resolved_gmailAddress := trimmed_or_undefined (gmailAddress merged);
     resolved_credentialsPath := trimmed_or_undefined (credentialsPath merged);
     resolved_tokenPath := trimmed_or_undefined (tokenPath merged);
     resolved_projectId := trimmed_or_undefined (projectId merged);
     config := merged |}.

End Resolve.

(** An optional string that is absent or a trimmed, non-empty string. *)
Definition absent_or_clean (value : option jsstring) : Prop :=
  match value with
  | Some s => s <> [] /\ trim s = s
  | None => True
  end.

(** What [processInboundEmail] reads of the resolved account. *)
Definition inbound_view (r : ResolvedEmailAccount) : Monitor.account :=
  {| Monitor.gmailAddress := resolved_gmailAddress r;
     Monitor.dmPolicy := dmPolicy (config r);
     Monitor.allowFrom := allowFrom (config r);
     Monitor.preserveCc := preserveCc (config r) |}.

End Accounts.

(** ** Message parts (client.ts) *)

Module Client.

(** [gmail_v1.Schema$MessagePart] as far as the two walks read it; [None]
    is an absent or null field.  [data], [attachmentId] and [size] are the
    fields of [part.body], absent when the part has no body. *)
#[local] Unset Elimination Schemes.
Inductive MessagePart : Type :=
| Part (mimeType filename data attachmentId : option jsstring)
       (size : option Z) (parts : option (list MessagePart)).
#[local] Set Elimination Schemes.

Definition part_mimeType (p : MessagePart) : option jsstring :=
  match p with Part m _ _ _ _ _ => m end.
Definition part_data (p : MessagePart) : option jsstring :=
  match p with Part _ _ d _ _ _ => d end.
Definition part_parts (p : MessagePart) : option (list MessagePart) :=
  match p with Part _ _ _ _ _ ps => ps end.

(** Truthiness of an optional string. *)
Definition truthy (value : option jsstring) : bool :=
  match value with
  | Some s => negb (falsy s)
  | None => false
  end.


Definition or_empty (value : option jsstring) : jsstring :=
  match value with Some s => s | None => [] end.




(** [result] of [extractBodyParts]. *)
Record bodies := { text : jsstring; html : jsstring }.

Section Bodies.
Context {C : JsCase}.

(** [decodeBase64Url], which goes through Node's [Buffer]. *)
Variable decodeBase64Url : jsstring -> jsstring.

(** The two assignments of the loop for one part. *)
Definition take_body (p : MessagePart) (result : bodies) : bodies :=
  let mime := match part_mimeType p with
              | Some m => toLowerCase m
              | None => []
              end in
  if JsString.eqb mime (lit "text/plain") && truthy (part_data p)
     && falsy (text result)
  then {| text := decodeBase64Url (or_empty (part_data p));
          html := html result |}
  else if JsString.eqb mime (lit "text/html") && truthy (part_data p)
          && falsy (html result)
  then {| text := text result;
          html := decodeBase64Url (or_empty (part_data p)) |}
  else result.

(** The body of the loop of [extractBodyParts] for one part. *)
Fixpoint walk_part (p : MessagePart) (result : bodies) : bodies :=
  match p with
  | Part _ _ _ _ _ ps =>
      let r := take_body p result in
      match ps with
      | Some children =>
          fold_left (fun acc child => walk_part child acc) children r
      | None => r
      end
  end.

Definition extractBodyParts (parts : option (list MessagePart))
    (result : bodies) : bodies :=
  match parts with
  | Some ps => fold_left (fun acc child => walk_part child acc) ps result
  | None => result
  end.

End Bodies.

(** The parts of a tree in the order the walks visit them. *)
Fixpoint preorder (p : MessagePart) : list MessagePart :=
  match p with
  | Part _ _ _ _ _ ps =>
      p :: match ps with
           | Some children => flat_map preorder children
           | None => []
           end
  end.

Definition all_parts (parts : option (list MessagePart)) : list MessagePart :=
  match parts with
  | Some ps => flat_map preorder ps
  | None => []
  end.

End Client.

(* ===================================================================== *)
(** * Part II: properties                                                 *)
(* ===================================================================== *)

Module JsStringFacts.

Lemma eqb_eq (a b : jsstring) : JsString.eqb a b = true <-> a = b.
Proof.
  unfold JsString.eqb. destruct (list_eq_dec N.eq_dec a b); split; congruence.
Qed.

Lemma eqb_neq (a b : jsstring) : JsString.eqb a b = false <-> a <> b.
Proof.
  unfold JsString.eqb. destruct (list_eq_dec N.eq_dec a b); split; congruence.
Qed.

Lemma eqb_refl (a : jsstring) : JsString.eqb a a = true.
Proof. now apply eqb_eq. Qed.

Lemma falsy_false (s : jsstring) : falsy s = false <-> s <> [].
Proof. destruct s; simpl; split; congruence. Qed.

(** *** Trimming *)

Lemma trimStart_solid (s : jsstring) : starts_solid (trimStart s).
Proof.
  induction s as [|c s IH]; simpl; [exact I|].
  destruct (is_space c) eqn:E; [exact IH | exact E].
Qed.

Lemma trimStart_fixed (s : jsstring) : starts_solid s -> trimStart s = s.
Proof.
  destruct s as [|c s]; simpl; [reflexivity|]. now intros ->.
Qed.

(** [trimStart] leaves a suffix. *)
Lemma trimStart_suffix (s : jsstring) :
  exists blank, s = blank ++ trimStart s.
Proof.
  induction s as [|c s [blank IH]]; simpl.
  - now exists [].
  - destruct (is_space c).
    + exists (c :: blank). simpl. now rewrite <- IH.
    + now exists [].
Qed.

(** [trimEnd] leaves a prefix, so it keeps a solid start. *)
Lemma trimEnd_solid (s : jsstring) : starts_solid s -> starts_solid (trimEnd s).
Proof.
  unfold trimEnd. intros Hs.
  destruct (trimStart_suffix (rev s)) as [blank E].
  apply (f_equal (@rev code_unit)) in E.
  rewrite rev_involutive, rev_app_distr in E.
  destruct (rev (trimStart (rev s))) as [|c t]; [exact I|].
  rewrite E in Hs. exact Hs.
Qed.

Lemma trimEnd_fixed (s : jsstring) : trimEnd (trimEnd s) = trimEnd s.
Proof.
  unfold trimEnd. rewrite rev_involutive.
  now rewrite (trimStart_fixed _ (trimStart_solid (rev s))).
Qed.

Lemma trim_idempotent (s : jsstring) : trim (trim s) = trim s.
Proof.
  unfold trim.
  rewrite (trimStart_fixed (trimEnd (trimStart s))).
  - apply trimEnd_fixed.
  - apply trimEnd_solid, trimStart_solid.
Qed.

End JsStringFacts.

Module DedupeFacts.
Import Dedupe JsStringFacts.

#[local] Open Scope Z_scope.

(** *** The map operations on the entry list *)

Lemma map_get_None (key : jsstring) (c : cache) :
  map_get key c = None <-> absent key c.
Proof.
  unfold map_get, absent. induction c as [|e c IH]; simpl.
  - split; [constructor | reflexivity].
  - destruct (JsString.eqb (fst e) key) eqn:E.
    + apply eqb_eq in E. split; [discriminate|].
      intros H. inversion H; subst. contradiction.
    + apply eqb_neq in E. rewrite IH. split.
      * now constructor.
      * intros H. now inversion H.
Qed.

Lemma map_get_last (key : jsstring) (v : Z) (c : cache) :
  absent key c -> map_get key (c ++ [(key, v)]) = Some v.
Proof.
  unfold map_get. induction 1 as [|e c Hne _ IH]; simpl.
  - now rewrite eqb_refl.
  - apply eqb_neq in Hne. now rewrite Hne.
Qed.

Lemma map_get_app_absent (key : jsstring) (c1 c2 : cache) :
  absent key c1 -> map_get key (c1 ++ c2) = map_get key c2.
Proof.
  unfold map_get. induction 1 as [|e c Hne _ IH]; simpl; [reflexivity|].
  apply eqb_neq in Hne. now rewrite Hne.
Qed.

Lemma absent_filter (key : jsstring) (p : jsstring * Z -> bool) (c : cache) :
  absent key c -> absent key (filter p c).
Proof.
  unfold absent. rewrite !Forall_forall. intros H e He.
  apply filter_In in He. now apply H.
Qed.

Lemma absent_map_delete (key : jsstring) (c : cache) :
  absent key (map_delete key c).
Proof.
  unfold absent, map_delete. apply Forall_forall. intros e He.
  apply filter_In in He. destruct He as [_ He].
  apply negb_true_iff in He. now apply eqb_neq.
Qed.

Lemma map_delete_absent (key : jsstring) (c : cache) :
  absent key c -> map_delete key c = c.
Proof.
  unfold map_delete. induction 1 as [|e c Hne _ IH]; simpl; [reflexivity|].
  apply eqb_neq in Hne. rewrite Hne. simpl. now rewrite IH.
Qed.

Lemma map_delete_length (key : jsstring) (c : cache) :
  (length (map_delete key c) <= length c)%nat.
Proof. apply filter_length_le. Qed.

Lemma map_delete_present_length (key : jsstring) (c : cache) :
  map_get key c <> None -> (length (map_delete key c) < length c)%nat.
Proof.
  unfold map_get, map_delete. induction c as [|e c IH]; simpl; [congruence|].
  destruct (JsString.eqb (fst e) key); simpl.
  - intros _. pose proof (filter_length_le
      (fun e0 => negb (JsString.eqb (fst e0) key)) c). lia.
  - intros H. apply IH in H. lia.
Qed.

Lemma map_set_absent (key : jsstring) (v : Z) (c : cache) :
  absent key c -> map_set key v c = c ++ [(key, v)].
Proof.
  induction 1 as [|e c Hne _ IH]; simpl; [reflexivity|].
  apply eqb_neq in Hne. rewrite Hne. now rewrite IH.
Qed.

(** [touch] moves the key to the most-recent end with the new time. *)
Lemma touch_spec (key : jsstring) (now : Z) (c : cache) :
  touch key now c = map_delete key c ++ [(key, now)].
Proof. unfold touch. apply map_set_absent, absent_map_delete. Qed.

Lemma keys_truthy_filter (p : jsstring * Z -> bool) (c : cache) :
  keys_truthy c -> keys_truthy (filter p c).
Proof.
  unfold keys_truthy. rewrite !Forall_forall. intros H e He.
  apply filter_In in He. now apply H.
Qed.

Lemma keys_truthy_touch (key : jsstring) (now : Z) (c : cache) :
  falsy key = false -> keys_truthy c -> keys_truthy (touch key now c).
Proof.
  intros Hk Hc. rewrite touch_spec. apply Forall_app. split.
  - now apply keys_truthy_filter.
  - now repeat constructor.
Qed.

(** *** The two loops of [prune] *)

Lemma evict_within (rounds : nat) (limit : Z) (c : cache) :
  map_size c <= limit -> evict rounds limit c = c.
Proof.
  intros H. destruct rounds; simpl; [reflexivity|].
  destruct (Z.gtb_spec (map_size c) limit); [lia | reflexivity].
Qed.

(** With truthy keys the loop never leaves through its [break], and
    [length c] rounds bring the size down to the limit. *)
Lemma evict_settled (rounds : nat) (limit : Z) (c : cache) :
  keys_truthy c -> 0 <= limit -> (length c <= rounds)%nat ->
  map_size (evict rounds limit c) <= limit.
Proof.
  revert c. induction rounds as [|n IH]; intros c Hk Hl Hn.
  - destruct c; simpl in *; [unfold map_size; simpl; lia | lia].
  - simpl. destruct (Z.gtb_spec (map_size c) limit) as [Hgt|Hle]; [|exact Hle].
    destruct c as [|e c]; [unfold map_size in Hgt; simpl in Hgt; lia|].
    cbn [first_key]. inversion Hk as [|? ? He Hc]; subst. rewrite He.
    apply IH; [now apply keys_truthy_filter | exact Hl |].
    unfold map_delete. cbn [filter]. rewrite eqb_refl. cbn [negb].
    pose proof (map_delete_length (fst e) c). unfold map_delete in H.
    simpl in Hn. lia.
Qed.

Lemma keys_truthy_evict (rounds : nat) (limit : Z) (c : cache) :
  keys_truthy c -> keys_truthy (evict rounds limit c).
Proof.
  revert c. induction rounds as [|n IH]; intros c Hk; simpl; [exact Hk|].
  destruct (map_size c >? limit); [|exact Hk].
  destruct (first_key c) as [k|]; [|exact Hk].
  destruct (falsy k); [exact Hk|].
  now apply IH, keys_truthy_filter.
Qed.

Lemma maxSize_nonneg (o : options) : 0 <= maxSize o.
Proof. unfold maxSize. lia. Qed.

Lemma prune_bounded (o : options) (now : Z) (c : cache) :
  keys_truthy c -> map_size (prune o now c) <= maxSize o.
Proof.
  intros Hk. unfold prune.
  apply evict_settled; [|apply maxSize_nonneg|lia].
  destruct (ttlMs o >? 0); [now apply keys_truthy_filter | exact Hk].
Qed.

Lemma keys_truthy_prune (o : options) (now : Z) (c : cache) :
  keys_truthy c -> keys_truthy (prune o now c).
Proof.
  intros Hk. unfold prune. apply keys_truthy_evict.
  destruct (ttlMs o >? 0); [now apply keys_truthy_filter | exact Hk].
Qed.

(** *** The cache invariant *)

(** What every call of [check] preserves: keys are truthy and the size is
    within the limit. *)
Lemma check_invariant (o : options) (key : option jsstring) (now : Z)
    (c : cache) :
  keys_truthy c /\ map_size c <= maxSize o ->
  keys_truthy (snd (check o key now c))
  /\ map_size (snd (check o key now c)) <= maxSize o.
Proof.
  intros [Hk Hs]. unfold check.
  destruct key as [k|]; [|now split].
  destruct (falsy k) eqn:Ek; [now split|].
  assert (Hmiss : keys_truthy (snd (false, prune o now (touch k now c)))
                  /\ map_size (snd (false, prune o now (touch k now c)))
                     <= maxSize o).
  { simpl. split.
    - now apply keys_truthy_prune, keys_truthy_touch.
    - now apply prune_bounded, keys_truthy_touch. }
  destruct (map_get k c) as [existing|] eqn:Eg; [|exact Hmiss].
  destruct ((ttlMs o <=? 0) || (now - existing <? ttlMs o)); [|exact Hmiss].
  simpl. split; [now apply keys_truthy_touch|].
  rewrite touch_spec. unfold map_size in *. rewrite length_app. simpl.
  assert (Hp : map_get k c <> None) by congruence.
  apply map_delete_present_length in Hp. lia.
Qed.

Lemma run_invariant (o : options) (calls : list (option jsstring * Z))
    (c : cache) :
  keys_truthy c /\ map_size c <= maxSize o ->
  keys_truthy (run o calls c) /\ map_size (run o calls c) <= maxSize o.
Proof.
  revert c. induction calls as [|[key now] calls IH]; intros c H; simpl.
  - exact H.
  - now apply IH, check_invariant.
Qed.

Lemma run_app (o : options) (a b : list (option jsstring * Z)) (c : cache) :
  run o (a ++ b) c = run o b (run o a c).
Proof.
  revert c. induction a as [|[key now] a IH]; intros c; simpl; [reflexivity|].
  apply IH.
Qed.

(** C9. Starting from the empty cache, after every call of any finite
    sequence of [check] calls (any keys, absent or empty ones included, any
    times) the backing store holds at most [maxSize] entries. *)
Theorem store_bounded (o : options) (calls : list (option jsstring * Z))
    (n : nat) :
  map_size (run o (firstn n calls) []) <= maxSize o.
Proof.
  apply run_invariant. split; [constructor|].
  unfold map_size. simpl. apply maxSize_nonneg.
Qed.

(** C8. For every time and every cache state, [check] with an absent
    ([undefined]/[null]) or empty key answers [false] and returns the cache
    unchanged, so its size is unchanged too. *)
Theorem check_unidentified (o : options) (now : Z) (c : cache) :
  check o None now c = (false, c)
  /\ check o (Some []) now c = (false, c)
  /\ map_size (snd (check o None now c)) = map_size c
  /\ map_size (snd (check o (Some []) now c)) = map_size c.
Proof. repeat split. Qed.

(** *** A key just checked is remembered *)

Lemma map_delete_app_last (k key : jsstring) (t : Z) (c : cache) :
  k <> key -> map_delete k (c ++ [(key, t)]) = map_delete k c ++ [(key, t)].
Proof.
  intros Hne. unfold map_delete. rewrite filter_app. f_equal.
  cbn [filter fst]. apply not_eq_sym in Hne. apply eqb_neq in Hne.
  now rewrite Hne.
Qed.

Lemma evict_keeps_last (rounds : nat) (limit : Z) (key : jsstring) (t : Z)
    (c : cache) :
  1 <= limit -> absent key c ->
  exists c', evict rounds limit (c ++ [(key, t)]) = c' ++ [(key, t)]
             /\ absent key c'.
Proof.
  intros Hl. revert c. induction rounds as [|n IH]; intros c Ha; simpl.
  - now exists c.
  - destruct (map_size (c ++ [(key, t)]) >? limit) eqn:Hgt; [|now exists c].
    destruct c as [|e c].
    + unfold map_size in Hgt. simpl in Hgt. lia.
    + cbn [app first_key]. destruct (falsy (fst e)); [now exists (e :: c)|].
      change (e :: c ++ [(key, t)]) with ((e :: c) ++ [(key, t)]).
      inversion Ha as [|? ? Hne Hc]; subst.
      rewrite map_delete_app_last by congruence.
      apply IH. now apply absent_filter.
Qed.

Lemma prune_keeps_last (o : options) (key : jsstring) (now : Z) (c : cache) :
  1 <= maxSize o -> absent key c ->
  map_get key (prune o now (c ++ [(key, now)])) = Some now.
Proof.
  intros Hl Ha. unfold prune.
  assert (Hx : exists c0,
    (if ttlMs o >? 0 then expire (now - ttlMs o) (c ++ [(key, now)])
     else c ++ [(key, now)]) = c0 ++ [(key, now)] /\ absent key c0).
  { destruct (Z.gtb_spec (ttlMs o) 0) as [Hpos|_]; [|now exists c].
    exists (expire (now - ttlMs o) c). split; [|now apply absent_filter].
    unfold expire. rewrite filter_app. cbn [filter snd].
    destruct (Z.ltb_spec now (now - ttlMs o)); [lia | reflexivity]. }
  destruct Hx as (c0 & -> & Ha0).
  destruct (evict_keeps_last (length (c0 ++ [(key, now)])) (maxSize o) key now
              c0 Hl Ha0)
    as (c' & -> & Ha').
  now apply map_get_last.
Qed.

(** After [check(key, now)] with a truthy key and room for one entry, the
    cache holds [key] with the time [now]. *)
Lemma check_records (o : options) (key : jsstring) (now : Z) (c : cache) :
  key <> [] -> 1 <= maxSize o ->
  map_get key (snd (check o (Some key) now c)) = Some now.
Proof.
  intros Hk Hl. apply falsy_false in Hk. unfold check. rewrite Hk.
  assert (Hmiss : map_get key (snd (false, prune o now (touch key now c)))
                  = Some now).
  { simpl. rewrite touch_spec.
    apply prune_keeps_last; [exact Hl | apply absent_map_delete]. }
  destruct (map_get key c) as [existing|]; [|exact Hmiss].
  destruct ((ttlMs o <=? 0) || (now - existing <? ttlMs o)); [|exact Hmiss].
  simpl. rewrite touch_spec. apply map_get_last, absent_map_delete.
Qed.

(** The answer of [check] for a truthy key that the cache holds. *)
Lemma check_present (o : options) (key : jsstring) (now t : Z) (c : cache) :
  key <> [] -> map_get key c = Some t ->
  fst (check o (Some key) now c)
  = ((ttlMs o <=? 0) || (now - t <? ttlMs o)).
Proof.
  intros Hk Hg. apply falsy_false in Hk. unfold check. rewrite Hk, Hg.
  now destruct ((ttlMs o <=? 0) || (now - t <? ttlMs o)).
Qed.

Lemma check_absent (o : options) (key : jsstring) (now : Z) (c : cache) :
  map_get key c = None -> fst (check o (Some key) now c) = false.
Proof.
  intros Hg. unfold check. rewrite Hg. now destruct (falsy key).
Qed.

(** C1, as the code has it. For a non-empty key, a configuration with room
    for at least one entry ([maxSize >= 1]) and times [t1 < t2]:
    [check(K, t1)] directly followed by [check(K, t2)] answers [true] when
    expiry is disabled ([ttlMs <= 0]) or [t2 - t1 < ttlMs], and [false] when
    [ttlMs > 0] and [t2 - t1 >= ttlMs]. *)
Theorem check_after_check (o : options) (K : jsstring) (t1 t2 : Z)
    (c : cache) :
  K <> [] -> 1 <= options_maxSize o -> t1 < t2 ->
  let c1 := snd (check o (Some K) t1 c) in
  (options_ttlMs o <= 0 \/ t2 - t1 < options_ttlMs o ->
   fst (check o (Some K) t2 c1) = true)
  /\ (0 < options_ttlMs o /\ t2 - t1 >= options_ttlMs o ->
      fst (check o (Some K) t2 c1) = false).
Proof.
  intros HK Hm Ht c1.
  assert (Hg : map_get K c1 = Some t1).
  { apply check_records; [exact HK | unfold maxSize; lia]. }
  rewrite (check_present o K t2 t1 c1 HK Hg). unfold ttlMs. split; intros H.
  - apply orb_true_iff. destruct H as [H|H].
    + left. apply Z.leb_le. lia.
    + destruct (Z.le_gt_cases (options_ttlMs o) 0).
      * left. apply Z.leb_le. lia.
      * right. apply Z.ltb_lt. lia.
  - apply orb_false_iff. split.
    + apply Z.leb_gt. lia.
    + apply Z.ltb_ge. lia.
Qed.

Lemma check_after_check_witness :
  let o := {| options_ttlMs := 1000; options_maxSize := 3 |} in
  let c1 := snd (check o (Some (lit "acct:m1")) 0 []) in
  (options_ttlMs o <= 0 \/ 500 - 0 < options_ttlMs o ->
   fst (check o (Some (lit "acct:m1")) 500 c1) = true)
  /\ (0 < options_ttlMs o /\ 500 - 0 >= options_ttlMs o ->
      fst (check o (Some (lit "acct:m1")) 500 c1) = false).
Proof.
  apply (check_after_check
           {| options_ttlMs := 1000; options_maxSize := 3 |}
           (lit "acct:m1") 0 500 []).
  - discriminate.
  - simpl. lia.
  - lia.
Defined.

(** C1 as the spec words it fails on two kinds of configuration.  With
    [ttlMs = 0] entries never expire: [t2 - t1 >= ttlMs] holds and the second
    call still answers [true].  With [maxSize = 0] the entry is evicted at
    once: [t2 - t1 < ttlMs] holds and the second call answers [false]. *)
Lemma check_after_check_counterexample :
  (let o := {| options_ttlMs := 0; options_maxSize := 10 |} in
   0 < 5 /\ 5 - 0 >= options_ttlMs o
   /\ fst (check o (Some (lit "k")) 5 (snd (check o (Some (lit "k")) 0 [])))
      = true)
  /\ (let o := {| options_ttlMs := 1000; options_maxSize := 0 |} in
      0 < 5 /\ 5 - 0 < options_ttlMs o
      /\ fst (check o (Some (lit "k")) 5 (snd (check o (Some (lit "k")) 0 [])))
         = false).
Proof. repeat split; simpl; lia. Qed.

(** *** Filling the cache with distinct keys *)

Lemma expire_none (cutoff : Z) (c : cache) :
  Forall (fun e => cutoff <= snd e) c -> expire cutoff c = c.
Proof.
  unfold expire. induction 1 as [|e c He _ IH]; simpl; [reflexivity|].
  destruct (Z.ltb_spec (snd e) cutoff); [lia|]. simpl. now rewrite IH.
Qed.

(** A miss on a key while every stored entry is still in its window: the
    key goes last and only the size loop of [prune] can remove anything. *)
Lemma check_fresh (o : options) (key : jsstring) (now : Z) (c : cache) :
  falsy key = false -> absent key c ->
  Forall (fun e => in_window o (snd e) now) c ->
  check o (Some key) now c
  = (false, evict (S (length c)) (maxSize o) (c ++ [(key, now)])).
Proof.
  intros Hk Ha Hw. unfold check. rewrite Hk.
  apply map_get_None in Ha as Hg. rewrite Hg. f_equal.
  rewrite touch_spec, (map_delete_absent key c Ha). unfold prune.
  assert (E : (if ttlMs o >? 0 then expire (now - ttlMs o) (c ++ [(key, now)])
               else c ++ [(key, now)]) = c ++ [(key, now)]).
  { destruct (Z.gtb_spec (ttlMs o) 0) as [Hpos|_]; [|reflexivity].
    apply expire_none, Forall_app. split.
    - eapply Forall_impl; [|exact Hw]. unfold in_window. simpl. intros e He.
      lia.
    - repeat constructor. simpl. lia. }
  rewrite E, length_app, Nat.add_comm. reflexivity.
Qed.

Lemma absent_around (e : jsstring * Z) (c rest : cache) :
  NoDup (map fst (c ++ e :: rest)) -> absent (fst e) (c ++ rest).
Proof.
  rewrite map_app. simpl. intros H. apply NoDup_remove_2 in H.
  apply Forall_forall. intros x Hx E. apply H. rewrite <- map_app, <- E.
  now apply in_map.
Qed.

Lemma absent_of_NoDup (e : jsstring * Z) (c rest : cache) :
  NoDup (map fst (c ++ e :: rest)) -> absent (fst e) c.
Proof.
  intros H. apply absent_around in H. now apply Forall_app in H.
Qed.

Lemma absent_after (e : jsstring * Z) (rest : cache) :
  NoDup (map fst (e :: rest)) -> absent (fst e) rest.
Proof. apply (absent_around e [] rest). Qed.

(** Distinct truthy keys checked while all are in the window and the size
    limit is not passed are simply appended. *)
Lemma run_fill (o : options) (inserts : list (jsstring * Z)) (c : cache) :
  NoDup (map fst (c ++ inserts)) ->
  keys_truthy inserts ->
  (forall a b, In a (c ++ inserts) -> In b (c ++ inserts) ->
               in_window o (snd a) (snd b)) ->
  map_size (c ++ inserts) <= maxSize o ->
  run o (calls_of inserts) c = c ++ inserts.
Proof.
  revert c. induction inserts as [|e inserts IH]; intros c Hnd Hk Hw Hs.
  - simpl. now rewrite app_nil_r.
  - unfold calls_of. cbn [map run]. fold (calls_of inserts).
    inversion Hk as [|? ? He Hk']; subst.
    rewrite check_fresh;
      [ | exact He | now apply absent_of_NoDup with inserts | ].
    + cbn [snd]. destruct e as [k t]. cbn [fst snd].
      rewrite evict_within.
      * replace (c ++ (k, t) :: inserts) with ((c ++ [(k, t)]) ++ inserts)
          by now rewrite <- app_assoc.
        apply IH; try exact Hk'; rewrite <- app_assoc; assumption.
      * unfold map_size in *. rewrite length_app in *. simpl in *. lia.
    + apply Forall_forall. intros x Hx. apply Hw; apply in_or_app.
      * now left.
      * right. now left.
Qed.

(** C4. From the empty cache, [check] on [maxSize + 1] distinct non-empty
    keys at strictly increasing times, every one within the retention window
    of the first, leaves exactly the [maxSize] most recent entries: the
    first-inserted key is no longer present (a later check of it answers
    [false]) and each of the others is (a later in-window check of it
    answers [true]). *)
Theorem overflow_evicts_oldest (o : options) (first : jsstring * Z)
    (recent : list (jsstring * Z)) :
  NoDup (map fst (first :: recent)) ->
  Forall (fun e => fst e <> []) (first :: recent) ->
  Sorted Z.lt (map snd (first :: recent)) ->
  Forall (fun e => in_window o (snd first) (snd e)) (first :: recent) ->
  map_size (first :: recent) = maxSize o + 1 ->
  let c := run o (calls_of (first :: recent)) [] in
  c = recent
  /\ (forall t, fst (check o (Some (fst first)) t c) = false)
  /\ (forall e t, In e recent -> in_window o (snd e) t ->
                  fst (check o (Some (fst e)) t c) = true).
Proof.
  intros Hnd Hne Hsorted Hwin Hsize c.
  assert (Hk : keys_truthy (first :: recent)).
  { eapply Forall_impl; [|exact Hne]. intros e. apply falsy_false. }
  assert (Hfirst : forall e, In e (first :: recent) -> snd first <= snd e).
  { apply Sorted_StronglySorted in Hsorted; [|exact Z.lt_trans].
    simpl in Hsorted. apply StronglySorted_inv in Hsorted as [_ Hall].
    intros e [<-|He]; [lia|].
    rewrite Forall_forall in Hall.
    specialize (Hall (snd e) (in_map snd _ _ He)). lia. }
  assert (Hpair : forall a b, In a (first :: recent) ->
                              In b (first :: recent) ->
                              in_window o (snd a) (snd b)).
  { intros a b Ha Hb. rewrite Forall_forall in Hwin.
    specialize (Hwin b Hb). specialize (Hfirst a Ha).
    unfold in_window in *. lia. }
  assert (Hc : c = recent).
  { subst c.
    destruct (exists_last (l := first :: recent)) as (init & lst & E);
      [discriminate|].
    assert (Hgt : (map_size (first :: recent) >? maxSize o) = true)
      by (apply Z.gtb_lt; lia).
    assert (Hrest : map_size recent <= maxSize o)
      by (unfold map_size in *; simpl in Hsize; lia).
    assert (Hd : map_delete (fst first) (first :: recent) = recent).
    { unfold map_delete. cbn [filter]. rewrite eqb_refl. cbn [negb].
      apply map_delete_absent, absent_after, Hnd. }
    assert (Hf : falsy (fst first) = false) by now inversion Hk.
    revert Hnd Hk Hpair Hsize. rewrite E. intros Hnd Hk Hpair Hsize.
    unfold calls_of. rewrite map_app, run_app. fold (calls_of init).
    apply Forall_app in Hk as [Hki Hkl].
    assert (Hsz : map_size init = maxSize o).
    { unfold map_size in *. rewrite length_app in Hsize. simpl in Hsize.
      lia. }
    rewrite (run_fill o init []).
    - cbn [map run app]. rewrite check_fresh.
      + cbn [snd]. destruct lst as [k t]. cbn [fst snd]. rewrite <- E.
        cbn [evict first_key]. rewrite Hgt, Hf, Hd.
        now apply evict_within.
      + now inversion Hkl.
      + apply (absent_of_NoDup lst init []). exact Hnd.
      + apply Forall_forall. intros x Hx. apply Hpair; apply in_or_app.
        * now left.
        * right. now left.
    - simpl. rewrite map_app in Hnd. now apply NoDup_app_remove_r in Hnd.
    - exact Hki.
    - simpl. intros a b Ha Hb. apply Hpair; apply in_or_app; now left.
    - simpl. lia. }
  split; [exact Hc|]. rewrite Hc. split.
  - intros t. apply check_absent, map_get_None, absent_after, Hnd.
  - intros e t He Hw.
    assert (Hg : map_get (fst e) recent = Some (snd e)).
    { apply in_split in He as (l1 & l2 & ->).
      rewrite map_get_app_absent.
      - unfold map_get. simpl. now rewrite eqb_refl.
      - apply (absent_of_NoDup e (first :: l1) l2) in Hnd.
        now inversion Hnd. }
    rewrite (check_present o (fst e) t (snd e) recent); [| |exact Hg].
    + unfold in_window in Hw. apply orb_true_iff. destruct Hw.
      * left. now apply Z.leb_le.
      * right. now apply Z.ltb_lt.
    + rewrite Forall_forall in Hne. apply Hne. now right.
Qed.

Lemma overflow_evicts_oldest_witness :
  let o := {| options_ttlMs := 1000; options_maxSize := 2 |} in
  let first := (lit "a", 0) in
  let recent := [(lit "b", 1); (lit "c", 2)] in
  let c := run o (calls_of (first :: recent)) [] in
  c = recent
  /\ (forall t, fst (check o (Some (fst first)) t c) = false)
  /\ (forall e t, In e recent -> in_window o (snd e) t ->
                  fst (check o (Some (fst e)) t c) = true).
Proof.
  apply (overflow_evicts_oldest
           {| options_ttlMs := 1000; options_maxSize := 2 |}
           (lit "a", 0) [(lit "b", 1); (lit "c", 2)]).
  - repeat constructor; simpl; intuition discriminate.
  - repeat constructor; discriminate.
  - repeat constructor.
  - unfold in_window. repeat constructor; simpl; lia.
  - reflexivity.
Defined.

Example check_twice_in_window :
  let o := {| options_ttlMs := 1000; options_maxSize := 3 |} in
  fst (check o (Some (lit "a:m1")) 500 (snd (check o (Some (lit "a:m1")) 0 [])))
  = true.
Proof. reflexivity. Qed.

End DedupeFacts.

Module RegexFacts.
Import Regex.

(** *** Inversion of the language *)

Lemma lang_Never (s : jsstring) : ~ lang Never s.
Proof. intros H. inversion H. Qed.

Lemma lang_Empty_iff (s : jsstring) : lang Empty s <-> s = [].
Proof.
  split; intros H; [now inversion H | subst; constructor].
Qed.

Lemma lang_Class_iff (p : code_unit -> bool) (s : jsstring) :
  lang (Class p) s <-> exists c, s = [c] /\ p c = true.
Proof.
  split.
  - intros H. inversion H; subst. eauto.
  - intros (c & -> & Hp). now constructor.
Qed.

Lemma lang_Seq_iff (r1 r2 : regex) (s : jsstring) :
  lang (Seq r1 r2) s <-> exists s1 s2, s = s1 ++ s2 /\ lang r1 s1 /\ lang r2 s2.
Proof.
  split.
  - intros H. inversion H; subst. eauto.
  - intros (s1 & s2 & -> & H1 & H2). now constructor.
Qed.

Lemma lang_Alt_iff (r1 r2 : regex) (s : jsstring) :
  lang (Alt r1 r2) s <-> lang r1 s \/ lang r2 s.
Proof.
  split.
  - intros H. inversion H; subst; auto.
  - intros [H|H]; [now apply lang_Alt_l | now apply lang_Alt_r].
Qed.

(** A non-empty string of [r*] starts with a non-empty string of [r]. *)
Lemma lang_Star_cons_inv (r : regex) (c : code_unit) (s : jsstring) :
  lang (Star r) (c :: s) ->
  exists s1 s2, s = s1 ++ s2 /\ lang r (c :: s1) /\ lang (Star r) s2.
Proof.
  intros H. remember (Star r) as r' eqn:Er. remember (c :: s) as s' eqn:Es.
  induction H as [| | | | | |r0 s1 s2 H1 _ H2 IH2]; try discriminate.
  injection Er as ->. destruct s1 as [|c1 s1]; simpl in Es.
  - now apply IH2.
  - injection Es as -> <-. eauto.
Qed.

(** *** The derivative matcher decides the language *)

Lemma nullable_spec (r : regex) : nullable r = true <-> lang r [].
Proof.
  induction r as [| |p|r1 IH1 r2 IH2|r1 IH1 r2 IH2|r IH]; simpl.
  - split; [discriminate | intros H; inversion H].
  - split; [constructor | reflexivity].
  - split; [discriminate | intros H; inversion H].
  - rewrite andb_true_iff, IH1, IH2, lang_Seq_iff. split.
    + intros [H1 H2]. now exists [], [].
    + intros (s1 & s2 & E & H1 & H2). symmetry in E.
      apply app_eq_nil in E as [-> ->]. now split.
  - rewrite orb_true_iff, IH1, IH2, lang_Alt_iff. reflexivity.
  - split; [constructor | reflexivity].
Qed.

Lemma deriv_spec (c : code_unit) (r : regex) (s : jsstring) :
  lang (deriv c r) s <-> lang r (c :: s).
Proof.
  revert s.
  induction r as [| |p|r1 IH1 r2 IH2|r1 IH1 r2 IH2|r IH]; intros s; simpl.
  - split; intros H; inversion H.
  - split; intros H; inversion H.
  - rewrite lang_Class_iff. destruct (p c) eqn:Ep.
    + rewrite lang_Empty_iff. split.
      * intros ->. eauto.
      * intros (c0 & E & _). now injection E.
    + split; [intros H; inversion H|].
      intros (c0 & E & Hp). injection E as <- _. congruence.
  - assert (Hstep : lang (Seq (deriv c r1) r2) s
                    <-> exists s1 s2, s = s1 ++ s2 /\ lang r1 (c :: s1)
                                      /\ lang r2 s2).
    { rewrite lang_Seq_iff. split; intros (s1 & s2 & E & H1 & H2);
        exists s1, s2; (split; [exact E|]); (split; [|exact H2]);
        now apply IH1. }
    assert (Hinv : lang (Seq r1 r2) (c :: s)
                   <-> (exists s1 s2, s = s1 ++ s2 /\ lang r1 (c :: s1)
                                      /\ lang r2 s2)
                       \/ (lang r1 [] /\ lang r2 (c :: s))).
    { rewrite lang_Seq_iff. split.
      - intros (s1 & s2 & E & H1 & H2). destruct s1 as [|c1 s1]; simpl in E.
        + right. subst s2. now split.
        + left. injection E as <- ->. eauto.
      - intros [(s1 & s2 & -> & H1 & H2)|[H1 H2]].
        + now exists (c :: s1), s2.
        + now exists [], (c :: s). }
    rewrite Hinv. destruct (nullable r1) eqn:En.
    + rewrite lang_Alt_iff, Hstep, IH2.
      apply nullable_spec in En. tauto.
    + rewrite Hstep. split; [tauto|]. intros [H|[H _]]; [exact H|].
      apply nullable_spec in H. congruence.
  - rewrite !lang_Alt_iff, IH1, IH2. reflexivity.
  - rewrite lang_Seq_iff. split.
    + intros (s1 & s2 & -> & H1 & H2). apply IH in H1.
      now apply (lang_Star_cons r (c :: s1) s2).
    + intros H. apply lang_Star_cons_inv in H as (s1 & s2 & -> & H1 & H2).
      exists s1, s2. repeat split; [now apply IH | exact H2].
Qed.

Lemma test_whole_spec (r : regex) (s : jsstring) :
  test_whole r s = true <-> lang r s.
Proof.
  revert r. induction s as [|c s IH]; intros r; simpl.
  - apply nullable_spec.
  - rewrite IH. apply deriv_spec.
Qed.

Lemma test_prefix_spec (r : regex) (s : jsstring) :
  test_prefix r s = true <-> exists s1 s2, s = s1 ++ s2 /\ lang r s1.
Proof.
  revert r. induction s as [|c s IH]; intros r; simpl.
  - rewrite orb_false_r, nullable_spec. split.
    + intros H. now exists [], [].
    + intros (s1 & s2 & E & H). symmetry in E.
      now apply app_eq_nil in E as [-> _].
  - rewrite orb_true_iff, nullable_spec, IH. split.
    + intros [H|(s1 & s2 & -> & H)].
      * now exists [], (c :: s).
      * exists (c :: s1), s2. split; [reflexivity | now apply deriv_spec].
    + intros (s1 & s2 & E & H). destruct s1 as [|c1 s1]; simpl in E.
      * now left.
      * right. injection E as <- ->. exists s1, s2.
        split; [reflexivity | now apply deriv_spec].
Qed.

(** *** Shapes of the pattern pieces *)

Lemma Forall_iff {A : Type} (P Q : A -> Prop) (l : list A) :
  (forall x, P x <-> Q x) -> Forall P l <-> Forall Q l.
Proof.
  intros H. split; apply Forall_impl; intros x; apply H.
Qed.

Lemma lang_Star_Class_iff (p : code_unit -> bool) (s : jsstring) :
  lang (Star (Class p)) s <-> Forall (fun c => p c = true) s.
Proof.
  split.
  - induction s as [|c s IH]; intros H; [constructor|].
    apply lang_Star_cons_inv in H as (s1 & s2 & -> & H1 & H2).
    apply lang_Class_iff in H1 as (c0 & E & Hp).
    injection E as <- ->. constructor; [exact Hp | now apply IH].
  - induction 1 as [|c s Hp _ IH]; [constructor|].
    apply (lang_Star_cons (Class p) [c] s); [now constructor | exact IH].
Qed.

Lemma lang_plus_Class_iff (p : code_unit -> bool) (s : jsstring) :
  lang (plus (Class p)) s <-> s <> [] /\ Forall (fun c => p c = true) s.
Proof.
  unfold plus. rewrite lang_Seq_iff. split.
  - intros (s1 & s2 & -> & H1 & H2).
    apply lang_Class_iff in H1 as (c & -> & Hp).
    apply lang_Star_Class_iff in H2. split; [discriminate | now constructor].
  - intros [Hne H]. destruct H as [|c s Hp H]; [congruence|].
    exists [c], s. repeat split; [now constructor|].
    now apply lang_Star_Class_iff.
Qed.

Lemma lang_two_or_more_Class_iff (p : code_unit -> bool) (s : jsstring) :
  lang (two_or_more (Class p)) s
  <-> (2 <= length s)%nat /\ Forall (fun c => p c = true) s.
Proof.
  unfold two_or_more. rewrite lang_Seq_iff. split.
  - intros (s1 & s2 & -> & H1 & H2).
    apply lang_Class_iff in H1 as (c & -> & Hp).
    apply (lang_plus_Class_iff p s2) in H2 as [Hne H2].
    split; [|now constructor].
    destruct s2; [congruence | simpl; lia].
  - intros [Hlen H]. destruct H as [|c s Hp H]; [simpl in Hlen; lia|].
    exists [c], s. repeat split; [now constructor|].
    apply (lang_plus_Class_iff p s). split; [|exact H].
    destruct s; [simpl in Hlen; lia | discriminate].
Qed.

Lemma lang_str_i_iff (w s : jsstring) :
  lang (str_i w) s <-> map canonicalize s = map canonicalize w.
Proof.
  revert s. induction w as [|c w IH]; intros s; simpl.
  - rewrite lang_Empty_iff. split; [now intros -> | apply map_eq_nil].
  - rewrite lang_Seq_iff. split.
    + intros (s1 & s2 & -> & H1 & H2).
      apply lang_Class_iff in H1 as (x & -> & Hx).
      apply N.eqb_eq in Hx. apply IH in H2. simpl. congruence.
    + intros E. destruct s as [|x s]; [discriminate|]. simpl in E.
      injection E as Hx Hs. exists [x], s. repeat split.
      * constructor. now apply N.eqb_eq.
      * now apply IH.
Qed.

(** Under the [i] flag a hyphen still matches only a hyphen. *)
Lemma canonicalize_hyphen (c : code_unit) :
  (canonicalize c =? canonicalize 45)%N = true <-> c = 45%N.
Proof.
  rewrite N.eqb_eq. unfold canonicalize. simpl.
  destruct (N.leb_spec 97 c), (N.leb_spec c 122); simpl; lia.
Qed.

End RegexFacts.

Module ThreadingFacts.
Import Regex Threading.

(** *** Reply recipients *)

Section RecipientFacts.
Context {C : JsCase}.

Lemma same_addressb_spec (a b : jsstring) :
  same_addressb a b = true <-> same_address a b.
Proof. apply JsStringFacts.eqb_eq. Qed.

(** C5. The branch taken when the bot address occurs in the original To and
    the branch taken when it does not compute the same recipients, and the
    function equals the single unbranched formula on every input. *)
Theorem branches_agree (p : params) :
  reply_bot_in_to p (toLowerCase (botEmail p))
  = reply_bot_in_cc p (toLowerCase (botEmail p))
  /\ resolveReplyRecipients p = reply_formula p.
Proof.
  split; [reflexivity|].
  unfold resolveReplyRecipients, reply_formula.
  destruct (existsb _ (originalTo p));
    unfold reply_bot_in_to, reply_bot_in_cc; f_equal;
    destruct (preserveCc p); try reflexivity;
    now rewrite filter_app.
Qed.

Lemma resolve_to (p : params) :
  to (resolveReplyRecipients p) = [originalFrom p].
Proof.
  unfold resolveReplyRecipients. now destruct (existsb _ (originalTo p)).
Qed.

Lemma resolve_cc (p : params) :
  cc (resolveReplyRecipients p)
  = if preserveCc p
    then filter (fun addr => negb (same_addressb addr (botEmail p))
                             && negb (same_addressb addr (originalFrom p)))
           (originalTo p ++ originalCc p)
    else [].
Proof.
  unfold resolveReplyRecipients.
  destruct (existsb _ (originalTo p)); simpl;
    destruct (preserveCc p); try reflexivity;
    now rewrite filter_app.
Qed.

(** C2. On every input the reply goes to exactly the original sender; Cc is
    empty when [preserveCc] is off, and otherwise it is the original To
    followed by the original Cc with every address equal, up to letter case,
    to the bot or to the sender removed: order kept, nothing else dropped or
    merged. *)
Theorem reply_recipients_spec (p : params) :
  to (resolveReplyRecipients p) = [originalFrom p]
  /\ cc (resolveReplyRecipients p)
     = if preserveCc p
       then filter (fun addr => negb (same_addressb addr (botEmail p))
                                && negb (same_addressb addr (originalFrom p)))
              (originalTo p ++ originalCc p)
       else [].
Proof. split; [apply resolve_to | apply resolve_cc]. Qed.

(** The Cc list never holds the bot address, whatever the input. *)
Lemma bot_not_in_cc (p : params) :
  Forall (fun addr => ~ same_address addr (botEmail p))
    (cc (resolveReplyRecipients p)).
Proof.
  rewrite resolve_cc.
  destruct (preserveCc p); [|constructor].
  apply Forall_forall. intros addr Hin. apply filter_In in Hin as [_ Hk].
  apply andb_true_iff in Hk as [Hk _]. apply negb_true_iff in Hk.
  intros Hs. apply same_addressb_spec in Hs. congruence.
Qed.

(** C3, as the code has it. When the sender is not the bot itself (which
    the inbound handler checks before it resolves recipients), no address of
    the computed To or Cc equals the bot address up to letter case. *)
Theorem bot_not_in_recipients (p : params) :
  ~ same_address (originalFrom p) (botEmail p) ->
  Forall (fun addr => ~ same_address addr (botEmail p))
    (to (resolveReplyRecipients p) ++ cc (resolveReplyRecipients p)).
Proof.
  intros Hself. apply Forall_app. split; [|apply bot_not_in_cc].
  rewrite resolve_to. now repeat constructor.
Qed.

End RecipientFacts.

Lemma bot_not_in_recipients_witness :
  let p := {| botEmail := lit "bot@x.com"; originalFrom := lit "alice@x.com";
              originalTo := [lit "Bot@X.com"; lit "dave@x.com"];
              originalCc := [lit "carol@x.com"]; preserveCc := true |} in
  Forall (fun addr => ~ @same_address AsciiCase addr (botEmail p))
    (to (@resolveReplyRecipients AsciiCase p)
     ++ cc (@resolveReplyRecipients AsciiCase p)).
Proof.
  apply (@bot_not_in_recipients AsciiCase
           {| botEmail := lit "bot@x.com"; originalFrom := lit "alice@x.com";
              originalTo := [lit "Bot@X.com"; lit "dave@x.com"];
              originalCc := [lit "carol@x.com"]; preserveCc := true |}).
  unfold same_address. vm_compute. discriminate.
Defined.

(** C3 as the spec words it fails when the sender address is the bot's own:
    the reply's To is the sender, hence the bot. *)
Lemma bot_not_in_recipients_counterexample :
  let p := {| botEmail := lit "bot@x.com"; originalFrom := lit "Bot@x.com";
              originalTo := [lit "team@x.com"]; originalCc := [];
              preserveCc := true |} in
  exists addr,
    In addr (to (@resolveReplyRecipients AsciiCase p))
    /\ @same_address AsciiCase addr (botEmail p).
Proof.
  exists (lit "Bot@x.com"). split; [now left | reflexivity].
Qed.

(** *** Latest content *)

Import RegexFacts.

Lemma quote_header_spec (s : jsstring) :
  test_whole re_on_wrote s = true <-> quote_header s.
Proof.
  rewrite test_whole_spec. unfold re_on_wrote, quote_header.
  rewrite lang_Seq_iff. split.
  - intros (a & rest & -> & Ha & Hrest).
    apply lang_Seq_iff in Hrest as (mid & b & -> & Hmid & Hb).
    apply (lang_plus_Class_iff _ mid) in Hmid as [Hne Hmid].
    exists a, mid, b. repeat split.
    + now apply lang_str_i_iff.
    + exact Hne.
    + eapply Forall_impl; [|exact Hmid]. intros c. apply negb_true_iff.
    + now apply lang_str_i_iff.
  - intros (a & mid & b & -> & Ha & Hne & Hmid & Hb).
    exists a, (mid ++ b). repeat split; [now apply lang_str_i_iff|].
    apply lang_Seq_iff. exists mid, b. repeat split.
    + apply (lang_plus_Class_iff _ mid). split; [exact Hne|].
      eapply Forall_impl; [|exact Hmid]. intros c. apply negb_true_iff.
    + now apply lang_str_i_iff.
Qed.

Lemma original_message_spec (s : jsstring) :
  test_prefix re_original_message s = true <-> original_message_separator s.
Proof.
  rewrite test_prefix_spec.
  unfold re_original_message, original_message_separator. split.
  - intros (p & rest & -> & Hp).
    apply lang_Seq_iff in Hp as (hy & p' & -> & Hhy & Hp').
    apply lang_Seq_iff in Hp' as (blank & words & -> & Hblank & Hwords).
    apply (lang_two_or_more_Class_iff _ hy) in Hhy as [Hlen Hhy].
    exists hy, blank, words, rest. rewrite <- !app_assoc. repeat split.
    + exact Hlen.
    + eapply Forall_impl; [|exact Hhy]. intros c. apply canonicalize_hyphen.
    + now apply lang_Star_Class_iff.
    + now apply lang_str_i_iff.
  - intros (hy & blank & words & rest & -> & Hlen & Hhy & Hblank & Hwords).
    exists (hy ++ blank ++ words), rest. rewrite <- !app_assoc.
    split; [reflexivity|].
    apply lang_Seq_iff. exists hy, (blank ++ words). repeat split.
    + apply (lang_two_or_more_Class_iff _ hy). split; [exact Hlen|].
      eapply Forall_impl; [|exact Hhy]. intros c. apply canonicalize_hyphen.
    + apply lang_Seq_iff. exists blank, words. repeat split.
      * now apply lang_Star_Class_iff.
      * now apply lang_str_i_iff.
Qed.

Lemma underscores_spec (s : jsstring) :
  test_whole re_underscores s = true <-> underscore_divider s.
Proof.
  rewrite test_whole_spec. unfold re_underscores, underscore_divider, chr.
  rewrite lang_two_or_more_Class_iff.
  assert (H : Forall (fun c => (95 =? c)%N = true) s
              <-> Forall (fun c => c = 95%N) s).
  { apply Forall_iff. intros c. rewrite N.eqb_eq. split; congruence. }
  now rewrite H.
Qed.

(** The loop stops exactly at the lines whose trimmed text has a stop
    shape. *)
Lemma stops_spec (line : jsstring) : stops line = true <-> stop_line line.
Proof.
  unfold stops, stop_line, stop_shape.
  rewrite !orb_true_iff, quote_header_spec, original_message_spec,
    underscores_spec. tauto.
Qed.

Lemma scan_cons (line : jsstring) (rest result : list jsstring) :
  scan (line :: rest) result
  = if stops line then result
    else if startsWith (lit ">") line then scan rest result
         else scan rest (result ++ [line]).
Proof.
  unfold stops. cbn [scan].
  destruct (test_whole re_on_wrote (trim line)); [reflexivity|].
  destruct (test_prefix re_original_message (trim line)); [reflexivity|].
  now destruct (test_whole re_underscores (trim line)).
Qed.

(** The loop keeps the unquoted lines before the first stop line. *)
Lemma scan_spec (lines result : list jsstring) :
  exists kept rest,
    lines = kept ++ rest
    /\ Forall (fun l => stops l = false) kept
    /\ (rest = [] \/ exists l r, rest = l :: r /\ stops l = true)
    /\ scan lines result = result ++ filter not_quoted kept.
Proof.
  revert result. induction lines as [|line lines IH]; intros result.
  - exists [], []. simpl. rewrite app_nil_r. repeat split; auto.
  - rewrite scan_cons. destruct (stops line) eqn:Es.
    + exists [], (line :: lines). simpl. rewrite app_nil_r.
      repeat split; eauto.
    + destruct (startsWith (lit ">") line) eqn:Eq.
      * assert (Hq : not_quoted line = false)
          by (unfold not_quoted; now rewrite Eq).
        destruct (IH result) as (kept & rest & -> & Hk & Hr & ->).
        exists (line :: kept), rest. cbn [filter]. rewrite Hq.
        repeat split; auto.
      * assert (Hq : not_quoted line = true)
          by (unfold not_quoted; now rewrite Eq).
        destruct (IH (result ++ [line])) as (kept & rest & -> & Hk & Hr & ->).
        exists (line :: kept), rest. cbn [filter]. rewrite Hq.
        rewrite <- app_assoc. repeat split; auto.
Qed.

(** The early return for an empty body agrees with the general path. *)
Lemma extractLatestContent_unfold (bodyText : jsstring) :
  extractLatestContent bodyText
  = trim (join_nl (scan (split_nl bodyText) [])).
Proof.
  unfold extractLatestContent. destruct bodyText; reflexivity.
Qed.

(** C6, as the code has it. For every body text the lines are scanned top
    to bottom up to the first line whose trimmed text is [On ... wrote:]
    (letter case ignored), or starts with two or more hyphens, optional
    white space and [Original Message] (letter case ignored), or is two or
    more underscores and nothing else; that line and all after it are
    dropped.  Of the lines before it, those that begin with [>] are skipped
    and the others kept in order; the result is the kept lines joined with
    newlines and trimmed. *)
Theorem extract_latest_content (bodyText : jsstring) :
  exists kept rest,
    split_nl bodyText = kept ++ rest
    /\ Forall (fun l => ~ stop_line l) kept
    /\ (rest = [] \/ exists l r, rest = l :: r /\ stop_line l)
    /\ extractLatestContent bodyText
       = trim (join_nl (filter not_quoted kept)).
Proof.
  destruct (scan_spec (split_nl bodyText) []) as (kept & rest & E & Hk & Hr & Hs).
  exists kept, rest. repeat split.
  - exact E.
  - eapply Forall_impl; [|exact Hk]. intros l Hl Hstop.
    apply stops_spec in Hstop. congruence.
  - destruct Hr as [->|(l & r & -> & Hl)]; [now left|].
    right. exists l, r. split; [reflexivity | now apply stops_spec].
  - rewrite extractLatestContent_unfold, Hs. reflexivity.
Qed.

(** C6 as the spec words it, with the patterns applied to the line itself,
    fails on a body with CRLF line ends: the code trims the line
    [On Tue, Bob wrote:<CR>] before it tests it and stops there, while the
    untrimmed line does not match [^On .+ wrote:$] and would be kept. *)
Lemma extract_latest_content_counterexample :
  let body := join_nl [lit "Thanks" ++ [13%N];
                       lit "On Tue, Bob wrote:" ++ [13%N];
                       lit "> earlier mail"] in
  test_whole re_on_wrote (lit "On Tue, Bob wrote:" ++ [13%N]) = false
  /\ extractLatestContent body = lit "Thanks"
  /\ extractLatestContent_as_specified body
     = lit "Thanks" ++ [13%N; 10%N] ++ lit "On Tue, Bob wrote:"
  /\ extractLatestContent body <> extractLatestContent_as_specified body.
Proof.
  vm_compute. repeat split; discriminate.
Qed.

Example extract_reply :
  extractLatestContent
    (join_nl [lit "Hi there"; lit ""; lit "On Tue, Bob wrote:"; lit "> old stuff"])
  = lit "Hi there".
Proof. vm_compute. reflexivity. Qed.

Example extract_all_quoted :
  extractLatestContent (join_nl [lit ">quoted"; lit ">more quoted"]) = lit "".
Proof. vm_compute. reflexivity. Qed.

Example extract_forwarded :
  extractLatestContent
    (join_nl [lit "see below"; lit "-----Original Message-----"; lit "x"])
  = lit "see below".
Proof. vm_compute. reflexivity. Qed.

Example resolve_preserve :
  @resolveReplyRecipients AsciiCase
    {| botEmail := lit "bot@x.com"; originalFrom := lit "alice@x.com";
       originalTo := [lit "bot@x.com"]; originalCc := [lit "carol@x.com"];
       preserveCc := true |}
  = {| to := [lit "alice@x.com"]; cc := [lit "carol@x.com"] |}.
Proof. vm_compute. reflexivity. Qed.

End ThreadingFacts.

Module MonitorFacts.
Import Monitor JsStringFacts.

(** *** Message ids *)

Lemma normalizeMessageId_spec (raw : jsvalue) (id : jsstring) :
  normalizeMessageId raw = Some id <-> yields raw id.
Proof.
  unfold normalizeMessageId, yields. split.
  - destruct raw; try discriminate.
    destruct (falsy (trim j)) eqn:E; [discriminate|].
    intros H. injection H as <-. exists j. repeat split.
    now apply falsy_false.
  - intros (s & -> & <- & Hne). apply falsy_false in Hne. now rewrite Hne.
Qed.

Lemma includes_In (x : jsstring) (l : list jsstring) :
  includes x l = true <-> In x l.
Proof.
  unfold includes. rewrite existsb_exists. split.
  - intros (y & Hy & E). apply eqb_eq in E. now subst.
  - intros H. exists x. split; [exact H | apply eqb_refl].
Qed.

Lemma set_add_In (id x : jsstring) (target : idset) :
  In x (set_add id target) <-> In x target \/ x = id.
Proof.
  unfold set_add. fold (includes id target).
  destruct (includes id target) eqn:E.
  - apply includes_In in E. split; [auto|]. intros [H| ->]; assumption.
  - rewrite in_app_iff. simpl. intuition congruence.
Qed.

Lemma set_add_NoDup (id : jsstring) (target : idset) :
  NoDup target -> NoDup (set_add id target).
Proof.
  intros H. unfold set_add. fold (includes id target).
  destruct (includes id target) eqn:E; [exact H|].
  apply NoDup_app; [exact H | repeat constructor; intros [] |].
  intros x Hx [<-|[]]. apply includes_In in Hx. congruence.
Qed.

Lemma pushMessageId_In (target : idset) (raw : jsvalue) (x : jsstring) :
  In x (pushMessageId target raw) <-> In x target \/ yields raw x.
Proof.
  unfold pushMessageId. destruct (normalizeMessageId raw) as [id|] eqn:E.
  - apply normalizeMessageId_spec in E as Hy.
    assert (Hf : falsy id = false).
    { destruct Hy as (_ & _ & _ & Hne). now apply falsy_false. }
    rewrite Hf, set_add_In. split; (intros [H|H]; [now left|right]).
    + now subst.
    + apply normalizeMessageId_spec in H. congruence.
  - split; [auto|]. intros [H|H]; [exact H|].
    apply normalizeMessageId_spec in H. congruence.
Qed.

Lemma pushMessageId_NoDup (target : idset) (raw : jsvalue) :
  NoDup target -> NoDup (pushMessageId target raw).
Proof.
  intros H. unfold pushMessageId.
  destruct (normalizeMessageId raw) as [id|]; [|exact H].
  destruct (falsy id); [exact H | now apply set_add_NoDup].
Qed.

Lemma push_all_In (raws : list jsvalue) (target : idset) (x : jsstring) :
  In x (fold_left pushMessageId raws target)
  <-> In x target \/ exists raw, In raw raws /\ yields raw x.
Proof.
  revert target. induction raws as [|raw raws IH]; intros target; simpl.
  - split; [auto|]. now intros [H|(raw & [] & _)].
  - rewrite IH, pushMessageId_In. split.
    + intros [[H|H]|(r & Hr & Hy)]; eauto.
    + intros [H|(r & [<-|Hr] & Hy)]; eauto.
Qed.

Lemma push_all_NoDup (raws : list jsvalue) (target : idset) :
  NoDup target -> NoDup (fold_left pushMessageId raws target).
Proof.
  revert target. induction raws as [|raw raws IH]; intros target H; simpl.
  - exact H.
  - now apply IH, pushMessageId_NoDup.
Qed.

(** [rec.name] of the code gives the field that the payload has under the
    name. *)
Lemma get_property_field (name : jsstring) (rec : list (jsstring * jsvalue)) :
  get_property name rec = field name rec.
Proof.
  unfold field. induction rec as [|[k v] rec IH]; simpl; [reflexivity|].
  destruct (JsString.eqb k name); [reflexivity | exact IH].
Qed.

(** The loops of [collectMessageIdsFromNode] push the node's candidates one
    after the other. *)
Lemma push_messages (messages : list jsvalue) (target : idset) :
  fold_left pushMessage messages target
  = fold_left pushMessageId (flat_map message_candidates messages) target.
Proof.
  revert target. induction messages as [|m ms IH]; intros target; simpl.
  - reflexivity.
  - rewrite fold_left_app, IH. f_equal.
    unfold pushMessage, message_candidates.
    destruct m; try reflexivity. cbn [asRecord fold_left].
    now rewrite !get_property_field.
Qed.

Lemma collect_candidates (target : idset) (node : jsvalue) :
  collectMessageIdsFromNode target node
  = fold_left pushMessageId (node_candidates node) target.
Proof.
  unfold collectMessageIdsFromNode, node_candidates.
  destruct node as [| | | | |items|rec]; try reflexivity.
  cbn [asRecord app fold_left]. rewrite !get_property_field, fold_left_app.
  rewrite <- push_messages.
  destruct (field (lit "messages") rec);
    destruct (field (lit "messageIds") rec); reflexivity.
Qed.

Lemma extract_candidates (payload : jsvalue) :
  extractInboundMessageIds payload
  = fold_left pushMessageId (candidates payload) [].
Proof.
  unfold extractInboundMessageIds, candidates.
  rewrite fold_left_app, <- collect_candidates.
  destruct payload as [| | | | |items|rec]; try reflexivity.
  cbn [asRecord]. rewrite get_property_field. apply collect_candidates.
Qed.

(** C10. For every payload the list of message ids has no repeated id,
    every id in it is a non-empty trimmed string, and an id is in it exactly
    when some candidate (the [messageId] and [id] fields, the elements of
    the [messageIds] array and the [messageId] and [id] of the records of
    the [messages] array, at the top level and under [data]) is a string
    whose trimmed text is that id and is not blank; other candidates are
    ignored. *)
Theorem inbound_message_ids (payload : jsvalue) :
  NoDup (extractInboundMessageIds payload)
  /\ Forall (fun id => id <> [] /\ trim id = id)
       (extractInboundMessageIds payload)
  /\ (forall id, In id (extractInboundMessageIds payload)
                 <-> exists raw, In raw (candidates payload) /\ yields raw id).
Proof.
  rewrite extract_candidates.
  assert (Hin : forall id,
    In id (fold_left pushMessageId (candidates payload) [])
    <-> exists raw, In raw (candidates payload) /\ yields raw id).
  { intros id. rewrite push_all_In. split; [|auto]. now intros [[]|H]. }
  repeat split.
  - apply push_all_NoDup. constructor.
  - apply Forall_forall. intros id Hid.
    apply Hin in Hid as (raw & _ & s & _ & <- & Hne).
    split; [exact Hne | apply trim_idempotent].
  - apply Hin.
  - apply Hin.
Qed.

Example ids_nested :
  extractInboundMessageIds
    (JObject
       [(lit "messages",
          JArray [JObject [(lit "id", JString (lit "m1"))];
                  JObject [(lit "messageId", JString (lit "m2"))]]);
        (lit "data",
          JObject [(lit "messageId", JString (lit "m3"));
                   (lit "messages",
                     JArray [JObject [(lit "id", JString (lit "m4"))]])])])
  = [lit "m1"; lit "m2"; lit "m3"; lit "m4"].
Proof. vm_compute. reflexivity. Qed.

Example ids_deduped :
  extractInboundMessageIds
    (JObject
       [(lit "messageId", JString (lit "m1"));
        (lit "messageIds",
          JArray [JString (lit ""); JString (lit "m1"); JString (lit "m2");
                  JNumber 5]);
        (lit "messages",
          JArray [JObject [(lit "id", JString (lit "m2"))];
                  JObject [(lit "messageId", JString (lit "   "))]]);
        (lit "data",
          JObject [(lit "messageIds",
                     JArray [JString (lit "m2"); JString (lit "m3")])])])
  = [lit "m1"; lit "m2"; lit "m3"].
Proof. vm_compute. reflexivity. Qed.

(** *** The sender gate *)

Section InboundFacts.
Context {C : JsCase}.
Variable htmlToPlainText : jsstring -> jsstring.
Variable userEmail : jsstring.

(** What the gate of the code lets through.  A call gets past the gate only
    if its sender is not the bot itself (letter case ignored), the policy is
    not [disabled], and the policy is [open], or the allow-list is empty or
    absent, or it holds the wildcard, or it holds the sender's address
    (letter case ignored).  So [disabled] blocks every message, mail from
    the bot's own address is blocked under every policy, and under
    [allowlist] and [pairing] a non-empty list without wildcard admits
    listed senders only.  That an empty list admits everybody is where the
    code parts from the plugin's notes (see the failing input of C7 below). *)
Theorem dispatch_gate (a : account) (email : ParsedEmail) :
  dispatched (processInboundEmail htmlToPlainText userEmail a email) = true ->
  toLowerCase (from email) <> bot_address userEmail a
  /\ policy_of a <> disabled
  /\ (policy_of a = open
      \/ allowed_senders a = []
      \/ In (lit "*") (allowed_senders a)
      \/ In (toLowerCase (from email)) (allowed_senders a)).
Proof.
  unfold processInboundEmail.
  destruct (JsString.eqb (toLowerCase (from email)) (bot_address userEmail a))
    eqn:Eself; [discriminate|].
  destruct (DmPolicy_eqb (policy_of a) disabled) eqn:Edis; [discriminate|].
  destruct (negb (DmPolicy_eqb (policy_of a) open)
            && (0 <? length (allowed_senders a))%nat
            && negb (includes (lit "*") (allowed_senders a))
            && negb (includes (toLowerCase (from email)) (allowed_senders a)))
    eqn:Egate; [discriminate|].
  intros _. repeat split.
  - now apply eqb_neq.
  - intros E. rewrite E in Edis. discriminate.
  - rewrite !andb_false_iff, !negb_false_iff in Egate.
    destruct Egate as [[[H|H]|H]|H].
    + left. now destruct (policy_of a).
    + right. left. apply Nat.ltb_ge in H.
      destruct (allowed_senders a); [reflexivity | simpl in H; lia].
    + right. right. left. now apply includes_In.
    + right. right. right. now apply includes_In.
Qed.

(** X15. The handler resolves recipients only after its self-sender return, so
    the recipients it hands over never hold the bot address.  Lower-casing
    twice is lower-casing once for [toLowerCase]; the fact is taken as a
    premise because the case tables are not modelled. *)
Lemma dispatched_recipients_exclude_bot (a : account) (email : ParsedEmail)
    (content : jsstring) (r : Threading.ReplyRecipients) :
  (forall s, toLowerCase (toLowerCase s) = toLowerCase s) ->
  processInboundEmail htmlToPlainText userEmail a email = Dispatched content r ->
  Forall (fun addr => toLowerCase addr <> bot_address userEmail a)
    (Threading.to r ++ Threading.cc r).
Proof.
  intros Hidem. unfold processInboundEmail.
  destruct (JsString.eqb (toLowerCase (from email)) (bot_address userEmail a))
    eqn:Eself; [discriminate|].
  destruct (DmPolicy_eqb (policy_of a) disabled); [discriminate|].
  destruct (negb _ && _ && _ && _); [discriminate|].
  destruct (falsy _ && _); [discriminate|].
  intros H. injection H as _ <-. apply eqb_neq in Eself.
  assert (Hbot : toLowerCase (bot_address userEmail a)
                 = bot_address userEmail a).
  { unfold bot_address. destruct (gmailAddress a); apply Hidem. }
  apply Forall_app. split.
  - rewrite ThreadingFacts.resolve_to. now repeat constructor.
  - eapply Forall_impl; [|apply ThreadingFacts.bot_not_in_cc].
    unfold Threading.same_address. simpl. intros addr Hn. now rewrite <- Hbot.
Qed.

End InboundFacts.

Lemma dispatch_gate_witness :
  let a := {| gmailAddress := Some (lit "Bot@x.com"); dmPolicy := None;
              allowFrom := Some [lit "Alice@x.com"]; preserveCc := None |} in
  let email := {| from := lit "alice@X.com"; to := [lit "bot@x.com"];
                  cc := []; bodyText := lit "hello"; bodyHtml := [];
                  attachments := 0 |} in
  @toLowerCase AsciiCase (from email)
  <> @bot_address AsciiCase (lit "bot@x.com") a
  /\ policy_of a <> disabled
  /\ (policy_of a = open
      \/ @allowed_senders AsciiCase a = []
      \/ In (lit "*") (@allowed_senders AsciiCase a)
      \/ In (@toLowerCase AsciiCase (from email))
           (@allowed_senders AsciiCase a)).
Proof.
  apply (@dispatch_gate AsciiCase (fun html => html) (lit "bot@x.com")).
  vm_compute. reflexivity.
Defined.

(** C7. The code at the failing input.  Under the [allowlist] policy with
    an empty allow-list, and likewise under the default configuration in
    which neither the policy nor the list is set, a sender that the list
    does not hold (it holds no wildcard either) is not blocked: the call
    gets past the gate.  The plugin's own notes say that mail from
    addresses not in the allow-list is ignored unless the policy is
    [open]. *)
Lemma dispatch_gate_failing_input :
  let email := {| from := lit "eve@y.com"; to := [lit "bot@x.com"];
                  cc := []; bodyText := lit "hello"; bodyHtml := [];
                  attachments := 0 |} in
  (let a := {| gmailAddress := Some (lit "bot@x.com");
               dmPolicy := Some allowlist; allowFrom := Some [];
               preserveCc := None |} in
   policy_of a = allowlist
   /\ ~ In (@toLowerCase AsciiCase (from email))
          (@allowed_senders AsciiCase a)
   /\ ~ In (lit "*") (@allowed_senders AsciiCase a)
   /\ dispatched (@processInboundEmail AsciiCase (fun html => html)
                    (lit "bot@x.com") a email) = true)
  /\ (let a := {| gmailAddress := Some (lit "bot@x.com"); dmPolicy := None;
                  allowFrom := None; preserveCc := None |} in
      policy_of a = allowlist
      /\ ~ In (@toLowerCase AsciiCase (from email))
             (@allowed_senders AsciiCase a)
      /\ ~ In (lit "*") (@allowed_senders AsciiCase a)
      /\ dispatched (@processInboundEmail AsciiCase (fun html => html)
                       (lit "bot@x.com") a email) = true).
Proof.
  repeat split; try (intros []); vm_compute; reflexivity.
Qed.

End MonitorFacts.

(* ===================================================================== *)
(** * Part III: further properties of the same code                       *)
(* ===================================================================== *)

Module DedupeLaws.
Import Dedupe JsStringFacts DedupeFacts.

#[local] Open Scope Z_scope.

(** *** Where the entries of a cache come from *)

Lemma evict_incl (rounds : nat) (limit : Z) (c : cache) :
  incl (evict rounds limit c) c.
Proof.
  revert c. induction rounds as [|n IH]; intros c; simpl.
  - apply incl_refl.
  - destruct (map_size c >? limit); [|apply incl_refl].
    destruct (first_key c) as [k|]; [|apply incl_refl].
    destruct (falsy k); [apply incl_refl|].
    eapply incl_tran; [apply IH|]. apply incl_filter.
Qed.

Lemma prune_incl (o : options) (now : Z) (c : cache) :
  incl (prune o now c) c.
Proof.
  unfold prune. eapply incl_tran; [apply evict_incl|].
  destruct (ttlMs o >? 0); [apply incl_filter | apply incl_refl].
Qed.

Lemma touch_In (key : jsstring) (now : Z) (c : cache) (e : jsstring * Z) :
  In e (touch key now c) -> In e c \/ e = (key, now).
Proof.
  rewrite touch_spec, in_app_iff. intros [H|[H|[]]]; [left|now right].
  now apply filter_In in H.
Qed.

(** An entry of the cache after [check] was there before or is the checked
    key with the time of the call. *)
Lemma check_In (o : options) (key : option jsstring) (now : Z) (c : cache)
    (e : jsstring * Z) :
  In e (snd (check o key now c)) -> In e c \/ (key = Some (fst e) /\ snd e = now).
Proof.
  unfold check. destruct key as [k|]; [|now left].
  destruct (falsy k); [now left|].
  assert (Hmiss : In e (prune o now (touch k now c)) ->
                  In e c \/ (Some k = Some (fst e) /\ snd e = now)).
  { intros H. apply prune_incl, touch_In in H as [H| ->]; [now left|].
    now right. }
  destruct (map_get k c) as [existing|]; [|exact Hmiss].
  destruct ((ttlMs o <=? 0) || (now - existing <? ttlMs o)); [|exact Hmiss].
  simpl. intros H. apply touch_In in H as [H| ->]; [now left | now right].
Qed.

Lemma run_In (o : options) (calls : list (option jsstring * Z)) (c : cache)
    (e : jsstring * Z) :
  In e (run o calls c) -> In e c \/ In (Some (fst e), snd e) calls.
Proof.
  revert c. induction calls as [|[key now] calls IH]; intros c; simpl.
  - now left.
  - intros H. apply IH in H as [H|H]; [|now right; right].
    apply check_In in H as [H|[-> <-]]; [now left|]. right. now left.
Qed.

Lemma map_get_In (key : jsstring) (t : Z) (c : cache) :
  map_get key c = Some t -> In (key, t) c.
Proof.
  unfold map_get. destruct (find _ c) as [e|] eqn:E; [|discriminate].
  intros H. injection H as <-. apply find_some in E as [Hin Hk].
  apply eqb_eq in Hk. destruct e. simpl in *. now subst.
Qed.

(** The answer [true] needs a stored entry of the key inside its window. *)
Lemma check_true_inv (o : options) (key : jsstring) (now : Z) (c : cache) :
  fst (check o (Some key) now c) = true ->
  exists t, map_get key c = Some t /\ in_window o t now.
Proof.
  unfold check. destruct (falsy key); [discriminate|].
  destruct (map_get key c) as [t|]; [|discriminate].
  destruct ((ttlMs o <=? 0) || (now - t <? ttlMs o)) eqn:E; [|discriminate].
  intros _. exists t. split; [reflexivity|].
  apply orb_true_iff in E as [E|E]; [left; now apply Z.leb_le|].
  right. now apply Z.ltb_lt.
Qed.

(** X1. From the empty cache, [check] answers "duplicate" only for a key that
    an earlier call checked, at a time whose window the present call is
    still in: a message that was never seen is never dropped. *)
Theorem duplicate_was_seen (o : options) (history : list (option jsstring * Z))
    (key : jsstring) (now : Z) :
  fst (check o (Some key) now (run o history [])) = true ->
  exists t, In (Some key, t) history /\ in_window o t now.
Proof.
  intros H. apply check_true_inv in H as (t & Hg & Hw).
  exists t. split; [|exact Hw].
  apply map_get_In, run_In in Hg as [[]|Hg]. exact Hg.
Qed.

Lemma duplicate_was_seen_witness :
  let o := {| options_ttlMs := 1000; options_maxSize := 3 |} in
  exists t, In (Some (lit "a:m1"), t) [(Some (lit "a:m1"), 10)]
            /\ in_window o t 500.
Proof.
  apply (duplicate_was_seen
           {| options_ttlMs := 1000; options_maxSize := 3 |}
           [(Some (lit "a:m1"), 10)] (lit "a:m1") 500).
  reflexivity.
Defined.

(** *** Touch on access *)

(** X2. A key that is checked again and again, each time inside the window of
    the check before, is answered "duplicate" every time after the first:
    each hit moves the entry's time forward. *)
Theorem rechecks_stay_duplicates (o : options) (key : jsstring) (t0 : Z)
    (times : list Z) (c : cache) :
  key <> [] -> 1 <= options_maxSize o -> chained o t0 times ->
  answers o (map (fun t => (Some key, t)) times)
    (snd (check o (Some key) t0 c))
  = repeat true (length times).
Proof.
  intros Hk Hm. assert (Hm' : 1 <= maxSize o) by (unfold maxSize; lia).
  revert t0 c. induction times as [|t times IH]; intros t0 c Hch;
    cbn [answers map length repeat].
  - reflexivity.
  - destruct Hch as [Hw Hch]. f_equal; [|now apply IH].
    rewrite (check_present o key t t0 _ Hk (check_records o key t0 c Hk Hm')).
    apply orb_true_iff. destruct Hw as [Hw|Hw].
    + left. now apply Z.leb_le.
    + right. now apply Z.ltb_lt.
Qed.

Lemma rechecks_stay_duplicates_witness :
  let o := {| options_ttlMs := 1000; options_maxSize := 3 |} in
  answers o (map (fun t => (Some (lit "a:m1"), t)) [900; 1800; 2700])
    (snd (check o (Some (lit "a:m1")) 0 []))
  = repeat true (length [900; 1800; 2700]).
Proof.
  apply (rechecks_stay_duplicates
           {| options_ttlMs := 1000; options_maxSize := 3 |}
           (lit "a:m1") 0 [900; 1800; 2700] []).
  - discriminate.
  - simpl. lia.
  - simpl. unfold in_window, ttlMs. simpl. repeat split; right; lia.
Defined.

(** *** Expiry *)

(** X3. When [check] answers "not a duplicate" for a non-empty key and expiry is
    on, the cache it leaves holds no entry older than [now - ttlMs]. *)
Theorem miss_sweeps_expired (o : options) (key : jsstring) (now : Z)
    (c : cache) :
  key <> [] -> 0 < options_ttlMs o ->
  fst (check o (Some key) now c) = false ->
  Forall (fun e => now - ttlMs o <= snd e) (snd (check o (Some key) now c)).
Proof.
  intros Hk Httl. apply falsy_false in Hk. unfold check. rewrite Hk.
  assert (Hpos : (ttlMs o >? 0) = true)
    by (apply Z.gtb_lt; unfold ttlMs; lia).
  assert (Hmiss : Forall (fun e => now - ttlMs o <= snd e)
                    (prune o now (touch key now c))).
  { apply Forall_forall. intros e He. unfold prune in He. rewrite Hpos in He.
    apply evict_incl in He. apply filter_In in He as [_ He].
    apply negb_true_iff, Z.ltb_ge in He. exact He. }
  destruct (map_get key c) as [t|]; [|intros _; exact Hmiss].
  destruct ((ttlMs o <=? 0) || (now - t <? ttlMs o)); [discriminate|].
  intros _. exact Hmiss.
Qed.

Lemma miss_sweeps_expired_witness :
  let o := {| options_ttlMs := 1000; options_maxSize := 3 |} in
  let c := [(lit "old", 0); (lit "new", 1500)] in
  Forall (fun e => 2000 - ttlMs o <= snd e)
    (snd (check o (Some (lit "k")) 2000 c)).
Proof.
  apply (miss_sweeps_expired
           {| options_ttlMs := 1000; options_maxSize := 3 |}
           (lit "k") 2000 [(lit "old", 0); (lit "new", 1500)]).
  - discriminate.
  - simpl. lia.
  - reflexivity.
Defined.

(** *** Keys stay distinct *)

Lemma NoDup_keys_filter (p : jsstring * Z -> bool) (c : cache) :
  NoDup (map fst c) -> NoDup (map fst (filter p c)).
Proof.
  induction c as [|e c IH]; simpl; intros H; [constructor|].
  inversion H as [|? ? Hnin Hnd]; subst.
  destruct (p e); simpl; [|now apply IH].
  constructor; [|now apply IH].
  intros Hin. apply Hnin. apply in_map_iff in Hin as (x & Hx & Hf).
  apply filter_In in Hf as [Hf _]. rewrite <- Hx. now apply in_map.
Qed.

Lemma absent_not_In (key : jsstring) (c : cache) :
  absent key c <-> ~ In key (map fst c).
Proof.
  unfold absent. rewrite Forall_forall. split.
  - intros H Hin. apply in_map_iff in Hin as (e & He & Hin).
    now apply (H e Hin).
  - intros H e He E. apply H. rewrite <- E. now apply in_map.
Qed.

Lemma touch_NoDup (key : jsstring) (now : Z) (c : cache) :
  NoDup (map fst c) -> NoDup (map fst (touch key now c)).
Proof.
  intros H. rewrite touch_spec, map_app. simpl.
  apply NoDup_app.
  - now apply NoDup_keys_filter.
  - repeat constructor. intros [].
  - intros k Hk [<-|[]]. revert Hk. apply absent_not_In, absent_map_delete.
Qed.

Lemma evict_NoDup (rounds : nat) (limit : Z) (c : cache) :
  NoDup (map fst c) -> NoDup (map fst (evict rounds limit c)).
Proof.
  revert c. induction rounds as [|n IH]; intros c H; simpl; [exact H|].
  destruct (map_size c >? limit); [|exact H].
  destruct (first_key c) as [k|]; [|exact H].
  destruct (falsy k); [exact H|]. now apply IH, NoDup_keys_filter.
Qed.

Lemma prune_NoDup (o : options) (now : Z) (c : cache) :
  NoDup (map fst c) -> NoDup (map fst (prune o now c)).
Proof.
  intros H. unfold prune. apply evict_NoDup.
  destruct (ttlMs o >? 0); [now apply NoDup_keys_filter | exact H].
Qed.

Lemma check_NoDup (o : options) (key : option jsstring) (now : Z) (c : cache) :
  NoDup (map fst c) -> NoDup (map fst (snd (check o key now c))).
Proof.
  intros H. unfold check. destruct key as [k|]; [|exact H].
  destruct (falsy k); [exact H|].
  assert (Hmiss : NoDup (map fst (prune o now (touch k now c))))
    by now apply prune_NoDup, touch_NoDup.
  destruct (map_get k c) as [t|]; [|exact Hmiss].
  destruct ((ttlMs o <=? 0) || (now - t <? ttlMs o)); [|exact Hmiss].
  now apply touch_NoDup.
Qed.

Lemma run_NoDup (o : options) (calls : list (option jsstring * Z)) (c : cache) :
  NoDup (map fst c) -> NoDup (map fst (run o calls c)).
Proof.
  revert c. induction calls as [|[key now] calls IH]; intros c H; simpl.
  - exact H.
  - now apply IH, check_NoDup.
Qed.

(** *** The most recent entries are the last to go *)

(** The size loop only takes entries from the old end: a tail of the cache
    that fits the limit stays as it is. *)
Lemma evict_keeps_suffix (rounds : nat) (limit : Z) (pre suf : cache) :
  NoDup (map fst (pre ++ suf)) -> map_size suf <= limit ->
  exists pre', evict rounds limit (pre ++ suf) = pre' ++ suf /\ incl pre' pre.
Proof.
  intros Hnd Hs. revert pre Hnd.
  induction rounds as [|n IH]; intros pre Hnd; simpl.
  - exists pre. split; [reflexivity | apply incl_refl].
  - destruct (Z.gtb_spec (map_size (pre ++ suf)) limit) as [Hgt|_];
      [|exists pre; split; [reflexivity | apply incl_refl]].
    destruct pre as [|e pre]; [simpl in Hgt; lia|].
    cbn [app first_key]. destruct (falsy (fst e));
      [exists (e :: pre); split; [reflexivity | apply incl_refl]|].
    assert (Hd : map_delete (fst e) (e :: pre ++ suf) = pre ++ suf).
    { unfold map_delete. cbn [filter]. rewrite eqb_refl. cbn [negb].
      apply map_delete_absent, absent_after, Hnd. }
    rewrite Hd. simpl in Hnd. apply NoDup_cons_iff in Hnd as [_ Hnd].
    destruct (IH pre Hnd) as (pre' & E & Hi).
    exists pre'. split; [exact E | now apply incl_tl].
Qed.

(** [check] on a non-empty key moves that key to the most recent end and
    leaves the other recent entries in place, as long as they fit the limit
    and none of them has expired. *)
Lemma check_keeps_suffix (o : options) (key : jsstring) (now : Z)
    (pre suf : cache) :
  NoDup (map fst (pre ++ suf)) -> falsy key = false ->
  map_size (map_delete key suf) < maxSize o ->
  (ttlMs o <= 0 \/ Forall (fun e => now - snd e <= ttlMs o) suf) ->
  exists pre',
    snd (check o (Some key) now (pre ++ suf))
    = pre' ++ map_delete key suf ++ [(key, now)]
    /\ incl pre' pre.
Proof.
  intros Hnd Hk Hs Hw.
  assert (Ht : touch key now (pre ++ suf)
               = map_delete key pre ++ map_delete key suf ++ [(key, now)]).
  { rewrite touch_spec. unfold map_delete.
    now rewrite filter_app, <- app_assoc. }
  assert (Htnd : NoDup (map fst (touch key now (pre ++ suf))))
    by now apply touch_NoDup.
  assert (Hmiss : exists pre',
    prune o now (touch key now (pre ++ suf))
    = pre' ++ map_delete key suf ++ [(key, now)] /\ incl pre' pre).
  { unfold prune.
    set (tail := map_delete key suf ++ [(key, now)]) in *.
    assert (Hx : exists front,
      (if ttlMs o >? 0 then expire (now - ttlMs o) (touch key now (pre ++ suf))
       else touch key now (pre ++ suf)) = front ++ tail
      /\ incl front pre
      /\ NoDup (map fst (front ++ tail))).
    { destruct (Z.gtb_spec (ttlMs o) 0) as [Hpos|_].
      - exists (expire (now - ttlMs o) (map_delete key pre)).
        assert (E : expire (now - ttlMs o) (touch key now (pre ++ suf))
                    = expire (now - ttlMs o) (map_delete key pre) ++ tail).
        { rewrite Ht. unfold expire at 1. rewrite filter_app. f_equal.
          apply expire_none. subst tail. apply Forall_app. split.
          - destruct Hw as [Hw|Hw]; [lia|].
            apply Forall_forall. intros e He. apply filter_In in He as [He _].
            rewrite Forall_forall in Hw. specialize (Hw e He). lia.
          - repeat constructor. simpl. lia. }
        rewrite E. repeat split.
        + eapply incl_tran; apply incl_filter.
        + rewrite <- E. now apply NoDup_keys_filter.
      - exists (map_delete key pre). rewrite Ht. repeat split.
        + apply incl_filter.
        + now rewrite <- Ht. }
    destruct Hx as (front & -> & Hfi & Hfnd).
    destruct (evict_keeps_suffix (length (front ++ tail)) (maxSize o)
                front tail Hfnd) as (pre' & E & Hi).
    - subst tail. unfold map_size in *. rewrite length_app. simpl. lia.
    - exists pre'. split; [exact E | now apply incl_tran with front]. }
  unfold check. rewrite Hk.
  destruct (map_get key (pre ++ suf)) as [t|]; [|exact Hmiss].
  destruct ((ttlMs o <=? 0) || (now - t <? ttlMs o)); [|exact Hmiss].
  exists (map_delete key pre). split; [exact Ht | apply incl_filter].
Qed.

Lemma one_span_incl (o : options) (l l' : list Z) :
  incl l' l -> one_span o l -> one_span o l'.
Proof.
  intros Hi [H|H]; [now left|]. right. intros a b Ha Hb. apply H; now apply Hi.
Qed.

Lemma survives_others (o : options) (key : jsstring) (t0 : Z)
    (others : list (option jsstring * Z)) (pre post : cache) :
  NoDup (map fst (pre ++ (key, t0) :: post)) ->
  Forall (fun call => fst call <> Some key) others ->
  Z.of_nat (length post) + Z.of_nat (length others) < maxSize o ->
  one_span o (t0 :: map snd post ++ map snd others) ->
  map_get key (run o others (pre ++ (key, t0) :: post)) = Some t0.
Proof.
  revert pre post. induction others as [|[k t] others IH];
    intros pre post Hnd Hne Hlen Hspan.
  - simpl. rewrite map_get_app_absent.
    + unfold map_get. simpl. now rewrite eqb_refl.
    + apply absent_around in Hnd. now apply Forall_app in Hnd.
  - cbn [run]. inversion Hne as [|? ? Hk Hne']; subst. simpl in Hk, Hlen.
    assert (Hspan' : one_span o (t0 :: map snd post ++ map snd others)).
    { eapply one_span_incl; [|exact Hspan]. intros x [<-|Hx]; [now left|].
      right. apply in_app_iff in Hx as [Hx|Hx]; apply in_app_iff;
        [now left | right; now right]. }
    destruct k as [k|]; [|cbn [check snd]; apply IH; auto; lia].
    destruct (falsy k) eqn:Ek.
    { unfold check. rewrite Ek. cbn [snd]. apply IH; auto; lia. }
    assert (Hkk : JsString.eqb key k = false)
      by (apply eqb_neq; congruence).
    assert (Hdel : map_delete k ((key, t0) :: post)
                   = (key, t0) :: map_delete k post).
    { unfold map_delete. cbn [filter fst]. now rewrite Hkk. }
    destruct (check_keeps_suffix o k t pre ((key, t0) :: post) Hnd Ek)
      as (pre' & E & _).
    + rewrite Hdel. unfold map_size. cbn [length].
      pose proof (map_delete_length k post). lia.
    + destruct Hspan as [Hs|Hs]; [now left|]. right.
      apply Forall_forall. intros e He. apply Hs.
      * destruct He as [<-|He]; [now left|]. right.
        apply in_app_iff. left. now apply in_map.
      * right. apply in_app_iff. right. now left.
    + assert (Hnd' : NoDup (map fst (snd (check o (Some k) t
                                              (pre ++ (key, t0) :: post)))))
        by now apply check_NoDup.
      rewrite E, Hdel in *. cbn [app] in *.
      apply IH; auto.
      * rewrite length_app. cbn [length].
        pose proof (map_delete_length k post). lia.
      * eapply one_span_incl; [|exact Hspan]. intros x [<-|Hx]; [now left|].
        right. rewrite map_app in Hx. cbn [map snd] in Hx.
        rewrite !in_app_iff in Hx. rewrite in_app_iff.
        destruct Hx as [[Hx|[<-|[]]]|Hx].
        -- left. apply in_map_iff in Hx as (e & <- & He).
           apply filter_In in He as [He _]. now apply in_map.
        -- right. now left.
        -- right. now right.
Qed.

(** X4. Least-recently-used eviction: a key that was just checked is still
    stored, with its time, after fewer than [maxSize] further calls on other
    keys, when no two of the call times are further apart than the retention
    time.  The cache before may be any that calls from the empty cache
    lead to. *)
Theorem recent_key_survives (o : options)
    (history others : list (option jsstring * Z)) (key : jsstring) (t0 : Z) :
  key <> [] ->
  Forall (fun call => fst call <> Some key) others ->
  Z.of_nat (length others) < maxSize o ->
  one_span o (t0 :: map snd others) ->
  map_get key
    (run o others (snd (check o (Some key) t0 (run o history []))))
  = Some t0.
Proof.
  intros Hk Hne Hlen Hspan. apply falsy_false in Hk.
  assert (Hnd : NoDup (map fst (run o history [])))
    by (apply run_NoDup; constructor).
  destruct (check_keeps_suffix o key t0 (run o history []) [])
    as (pre' & E & _).
  - now rewrite app_nil_r.
  - exact Hk.
  - unfold map_size. simpl. lia.
  - right. constructor.
  - assert (Hnd' : NoDup (map fst (snd (check o (Some key) t0
                                          (run o history [])))))
      by now apply check_NoDup.
    rewrite app_nil_r in E. rewrite E in *. simpl in *.
    apply survives_others; auto.
Qed.

Lemma recent_key_survives_witness :
  let o := {| options_ttlMs := 1000; options_maxSize := 3 |} in
  map_get (lit "k")
    (run o [(Some (lit "a"), 20); (Some (lit "b"), 30)]
       (snd (check o (Some (lit "k")) 10 (run o [(Some (lit "z"), 0)] []))))
  = Some 10.
Proof.
  apply (recent_key_survives
           {| options_ttlMs := 1000; options_maxSize := 3 |}
           [(Some (lit "z"), 0)]
           [(Some (lit "a"), 20); (Some (lit "b"), 30)] (lit "k") 10).
  - discriminate.
  - repeat constructor; discriminate.
  - reflexivity.
  - right. intros a b Ha Hb. simpl in Ha, Hb. unfold ttlMs. simpl.
    intuition (subst; lia).
Defined.

End DedupeLaws.

Module ThreadingLaws.
Import Regex Threading JsStringFacts ThreadingFacts.

(** *** Recipients *)

Section RecipientLaws.
Context {C : JsCase}.

(** X5. The Cc of a reply is taken from the original To and Cc, in their order,
    and never holds the sender, who is the To of the reply: no address is
    invented and the sender is not written twice. *)
Theorem cc_from_originals_without_sender (p : params) :
  incl (cc (resolveReplyRecipients p)) (originalTo p ++ originalCc p)
  /\ Forall (fun addr => ~ same_address addr (originalFrom p))
       (cc (resolveReplyRecipients p)).
Proof.
  rewrite resolve_cc. destruct (preserveCc p).
  - split; [apply incl_filter|].
    apply Forall_forall. intros addr Hin. apply filter_In in Hin as [_ Hk].
    apply andb_true_iff in Hk as [_ Hk]. apply negb_true_iff in Hk.
    intros Hs. apply same_addressb_spec in Hs. congruence.
  - split; [intros x []|constructor].
Qed.

End RecipientLaws.

(** *** Session keys *)

Lemma split_at_colon (a1 a2 r1 r2 : jsstring) :
  colon_free a1 -> colon_free a2 ->
  a1 ++ 58%N :: r1 = a2 ++ 58%N :: r2 -> a1 = a2 /\ r1 = r2.
Proof.
  unfold colon_free. revert a2.
  induction a1 as [|x a1 IH]; intros [|y a2] H1 H2 E; simpl in *.
  - injection E as ->. now split.
  - injection E as <- _. exfalso. apply H2. now left.
  - injection E as -> _. exfalso. apply H1. now left.
  - injection E as -> E. destruct (IH a2) as [-> ->]; auto.
Qed.

(** X6. For account ids without a colon the session key tells the account and
    the thread: two keys are equal only for the same account and thread. *)
Theorem session_key_injective (a1 a2 t1 t2 : jsstring) :
  colon_free a1 -> colon_free a2 ->
  buildEmailSessionKey a1 t1 = buildEmailSessionKey a2 t2 ->
  a1 = a2 /\ t1 = t2.
Proof.
  intros H1 H2 E. unfold buildEmailSessionKey in E.
  apply app_inv_head in E.
  change (lit ":thread:") with (58%N :: lit "thread:") in E.
  simpl in E. apply split_at_colon in E as [-> E]; auto.
  split; [reflexivity|]. now injection E.
Qed.

Lemma session_key_injective_witness :
  lit "sales" = lit "sales" /\ lit "t-18" = lit "t-18".
Proof.
  apply (session_key_injective (lit "sales") (lit "sales")
           (lit "t-18") (lit "t-18")).
  - unfold colon_free. vm_compute. intuition discriminate.
  - unfold colon_free. vm_compute. intuition discriminate.
  - reflexivity.
Defined.

(** *** Plain and quoted bodies *)

Lemma split_nl_nonempty (s : jsstring) : split_nl s <> [].
Proof.
  destruct s as [|c s]; simpl; [discriminate|].
  destruct (c =? 10)%N; [discriminate|]. now destruct (split_nl s).
Qed.

(** Splitting at newlines and joining with newlines gives the text back. *)
Lemma join_split (s : jsstring) : join_nl (split_nl s) = s.
Proof.
  induction s as [|c s IH]; [reflexivity|]. cbn [split_nl].
  pose proof (split_nl_nonempty s) as Hne.
  destruct (N.eqb_spec c 10) as [->|_].
  - destruct (split_nl s) as [|l ls]; [congruence|].
    cbn [join_nl app]. cbn [join_nl] in IH. now rewrite IH.
  - destruct (split_nl s) as [|l ls]; [congruence|].
    rewrite <- IH. now destruct ls.
Qed.

Lemma scan_all_kept (lines result : list jsstring) :
  Forall (fun l => stops l = false /\ not_quoted l = true) lines ->
  scan lines result = result ++ lines.
Proof.
  revert result. induction lines as [|line lines IH]; intros result H.
  - simpl. now rewrite app_nil_r.
  - inversion H as [|? ? [Hs Hq] H']; subst. rewrite scan_cons, Hs.
    unfold not_quoted in Hq. apply negb_true_iff in Hq. rewrite Hq.
    rewrite IH by exact H'. now rewrite <- app_assoc.
Qed.

(** X7. A body without a stop line and without a line that begins with [>]
    comes out whole, trimmed at both ends. *)
Theorem plain_body_unchanged (bodyText : jsstring) :
  Forall (fun l => stops l = false /\ not_quoted l = true)
    (split_nl bodyText) ->
  extractLatestContent bodyText = trim bodyText.
Proof.
  intros H. rewrite extractLatestContent_unfold, scan_all_kept by exact H.
  simpl. now rewrite join_split.
Qed.

Lemma plain_body_unchanged_witness :
  let body := join_nl [lit "  Hello,"; lit ""; lit "see you at 5 -- Al "] in
  extractLatestContent body = trim body.
Proof.
  apply (plain_body_unchanged
           (join_nl [lit "  Hello,"; lit ""; lit "see you at 5 -- Al "])).
  vm_compute. repeat constructor.
Defined.

Lemma trim_blank (s : jsstring) : blank s -> trim s = [].
Proof.
  intros H. unfold trim.
  assert (E : trimStart s = []).
  { induction H as [|c s Hc _ IH]; simpl; [reflexivity|]. now rewrite Hc. }
  now rewrite E.
Qed.

Lemma join_nl_blank (ls : list jsstring) :
  Forall blank ls -> blank (join_nl ls).
Proof.
  induction 1 as [|l ls Hl Hls IH]; [constructor|].
  destruct ls as [|l2 ls]; [exact Hl|].
  change (join_nl (l :: l2 :: ls)) with (l ++ 10%N :: join_nl (l2 :: ls)).
  apply Forall_app. split; [exact Hl|]. constructor; [reflexivity | exact IH].
Qed.

(** X8. A body in which every line is quoted (begins with [>]) or blank has no
    latest content: the result is the empty string. *)
Theorem quoted_or_blank_is_empty (bodyText : jsstring) :
  Forall (fun l => not_quoted l = false \/ blank l) (split_nl bodyText) ->
  extractLatestContent bodyText = [].
Proof.
  intros H. rewrite extractLatestContent_unfold.
  destruct (scan_spec (split_nl bodyText) []) as (kept & rest & E & _ & _ & ->).
  simpl. apply trim_blank, join_nl_blank. rewrite E in H.
  apply Forall_app in H as [H _]. apply Forall_forall. intros l Hl.
  apply filter_In in Hl as [Hl Hq]. rewrite Forall_forall in H.
  destruct (H l Hl) as [Hq'|Hb]; [congruence | exact Hb].
Qed.

Lemma quoted_or_blank_is_empty_witness :
  extractLatestContent (join_nl [lit "> old"; lit "  "; lit ">> older"]) = [].
Proof.
  apply (quoted_or_blank_is_empty
           (join_nl [lit "> old"; lit "  "; lit ">> older"])).
  vm_compute. repeat constructor; (now left) || (right; repeat constructor).
Defined.

End ThreadingLaws.

Module HtmlLaws.
Import Html.

#[local] Open Scope N_scope.

Lemma strip_scan_eq (lines result : list jsstring) :
  strip_scan lines result = Threading.scan lines result.
Proof.
  revert result. induction lines as [|line lines IH]; intros result; simpl.
  - reflexivity.
  - now rewrite !IH.
Qed.

(** X9. [stripEmailQuotes] of html.ts and [extractLatestContent] of
    threading.ts give the same result on every text. *)
Theorem stripEmailQuotes_is_extractLatestContent (text : jsstring) :
  stripEmailQuotes text = Threading.extractLatestContent text.
Proof.
  unfold stripEmailQuotes, Threading.extractLatestContent.
  now rewrite strip_scan_eq.
Qed.

Lemma replace_all_app (c : code_unit) (repl a b : jsstring) :
  replace_all c repl (a ++ b) = replace_all c repl a ++ replace_all c repl b.
Proof. unfold replace_all. apply flat_map_app. Qed.

Lemma escapeHtml_app (a b : jsstring) :
  escapeHtml (a ++ b) = escapeHtml a ++ escapeHtml b.
Proof. unfold escapeHtml. now rewrite !replace_all_app. Qed.

Lemma escapeHtml_unit (c : code_unit) : escapeHtml [c] = escape_unit c.
Proof.
  unfold escapeHtml, escape_unit, replace_all. cbn [flat_map app].
  destruct (N.eqb_spec c 38) as [->|H38]; [reflexivity|].
  cbn [flat_map app].
  destruct (N.eqb_spec c 60) as [->|H60]; [reflexivity|].
  cbn [flat_map app].
  destruct (N.eqb_spec c 62) as [->|H62]; [reflexivity|].
  cbn [flat_map app].
  destruct (N.eqb_spec c 34) as [->|H34]; reflexivity.
Qed.

Lemma escapeHtml_flat (str : jsstring) :
  escapeHtml str = flat_map escape_unit str.
Proof.
  induction str as [|c str IH]; [reflexivity|].
  change (c :: str) with ([c] ++ str).
  rewrite escapeHtml_app, escapeHtml_unit, IH. reflexivity.
Qed.

(** X10. The four replacements in a row act as one pass that escapes each
    character on its own: the ampersands written by the first replacement
    are not escaped again, and the text of a concatenation is the
    concatenation of the texts. *)
Theorem escapeHtml_one_pass (a b : jsstring) :
  escapeHtml a = flat_map escape_unit a
  /\ escapeHtml (a ++ b) = escapeHtml a ++ escapeHtml b.
Proof. split; [apply escapeHtml_flat | apply escapeHtml_app]. Qed.

(** X11. The escaped text holds no [<], [>] or double quote, so it cannot open
    or close a tag or an attribute. *)
Theorem escapeHtml_no_markup (str : jsstring) :
  Forall (fun c => c <> 60 /\ c <> 62 /\ c <> 34) (escapeHtml str).
Proof.
  rewrite escapeHtml_flat. induction str as [|c str IH]; [constructor|].
  cbn [flat_map]. apply Forall_app. split; [|exact IH].
  unfold escape_unit.
  destruct (N.eqb_spec c 38); [repeat constructor; discriminate|].
  destruct (N.eqb_spec c 60); [repeat constructor; discriminate|].
  destruct (N.eqb_spec c 62); [repeat constructor; discriminate|].
  destruct (N.eqb_spec c 34); [repeat constructor; discriminate|].
  repeat constructor; assumption.
Qed.

Lemma escape_unit_head (c : code_unit) :
  exists x rest, escape_unit c = x :: rest
                 /\ (x = 38 -> c = 38 \/ c = 60 \/ c = 62 \/ c = 34)
                 /\ (x <> 38 -> rest = [] /\ x = c).
Proof.
  unfold escape_unit.
  destruct (N.eqb_spec c 38).
  { exists 38, (lit "amp;"). repeat split; auto; now elim H. }
  destruct (N.eqb_spec c 60).
  { exists 38, (lit "lt;"). repeat split; auto; now elim H. }
  destruct (N.eqb_spec c 62).
  { exists 38, (lit "gt;"). repeat split; auto; now elim H. }
  destruct (N.eqb_spec c 34).
  { exists 38, (lit "quot;"). repeat split; auto; now elim H. }
  exists c, []. split; [reflexivity|]. split; [congruence | auto].
Qed.

Lemma escape_unit_special (c : code_unit) :
  c = 38 \/ c = 60 \/ c = 62 \/ c = 34 ->
  exists z rest, escape_unit c = 38 :: z :: rest
                 /\ ((z = 97 /\ c = 38) \/ (z = 108 /\ c = 60)
                     \/ (z = 103 /\ c = 62) \/ (z = 113 /\ c = 34)).
Proof.
  intros [-> | [-> | [-> | ->]]].
  - exists 97, (lit "mp;"). split; [reflexivity | auto].
  - exists 108, (lit "t;"). split; [reflexivity | auto].
  - exists 103, (lit "t;"). split; [reflexivity | auto 6].
  - exists 113, (lit "uot;"). split; [reflexivity | auto 6].
Qed.

(** X12. Escaping loses nothing: two texts with the same escaped form are the
    same text. *)
Theorem escapeHtml_injective (a b : jsstring) :
  escapeHtml a = escapeHtml b <-> a = b.
Proof.
  split; [|now intros ->]. rewrite !escapeHtml_flat. revert b.
  induction a as [|x a IH]; intros [|y b] E; cbn [flat_map] in E.
  - reflexivity.
  - destruct (escape_unit_head y) as (h & r & Ey & _). rewrite Ey in E.
    discriminate.
  - destruct (escape_unit_head x) as (h & r & Ex & _). rewrite Ex in E.
    discriminate.
  - assert (Hxy : x = y).
    { destruct (escape_unit_head x) as (hx & rx & Ex & Hsx & Hox).
      destruct (escape_unit_head y) as (hy & ry & Ey & Hsy & Hoy).
      assert (Eh : hx = hy).
      { rewrite Ex, Ey in E. now injection E. }
      subst hy. destruct (N.eq_dec hx 38) as [H38|H38].
      - destruct (escape_unit_special x (Hsx H38)) as (zx & tx & Ex' & Hx).
        destruct (escape_unit_special y (Hsy H38)) as (zy & ty & Ey' & Hy).
        assert (Ez : zx = zy).
        { rewrite Ex', Ey' in E. now injection E. }
        subst zy.
        destruct Hx as [[? ?]|[[? ?]|[[? ?]|[? ?]]]];
          destruct Hy as [[? ?]|[[? ?]|[[? ?]|[? ?]]]];
          subst; try reflexivity; discriminate.
      - destruct (Hox H38) as [_ Hx]. destruct (Hoy H38) as [_ Hy].
        congruence. }
    subst y. apply app_inv_head in E. f_equal. now apply IH.
Qed.

End HtmlLaws.

Module MonitorLaws.
Import Monitor JsStringFacts MonitorFacts.

(** *** History ids *)


(** *** The whole gate of [processInboundEmail] *)

Section GateLaws.
Context {C : JsCase}.
Variable htmlToPlainText : jsstring -> jsstring.
Variable userEmail : jsstring.


End GateLaws.

Lemma ascii_lower_idempotent (s : jsstring) :
  @toLowerCase AsciiCase (@toLowerCase AsciiCase s) = @toLowerCase AsciiCase s.
Proof.
  simpl. rewrite map_map. apply map_ext. intros c. unfold ascii_lower.
  destruct ((65 <=? c) && (c <=? 90))%N eqn:E; [|now rewrite E].
  apply andb_true_iff in E as [H1 H2].
  apply N.leb_le in H1. apply N.leb_le in H2.
  assert (E' : (c + 32 <=? 90)%N = false) by (apply N.leb_gt; lia).
  now rewrite E', andb_false_r.
Qed.

Lemma dispatched_recipients_exclude_bot_witness :
  let a := {| gmailAddress := Some (lit "Bot@x.com"); dmPolicy := None;
              allowFrom := Some [lit "Alice@x.com"]; preserveCc := None |} in
  let r := {| Threading.to := [lit "alice@x.com"];
              Threading.cc := [lit "carol@x.com"] |} in
  Forall (fun addr => @toLowerCase AsciiCase addr
                      <> @bot_address AsciiCase (lit "bot@x.com") a)
    (Threading.to r ++ Threading.cc r).
Proof.
  apply (@dispatched_recipients_exclude_bot AsciiCase (fun html => html)
           (lit "bot@x.com")
           {| gmailAddress := Some (lit "Bot@x.com"); dmPolicy := None;
              allowFrom := Some [lit "Alice@x.com"]; preserveCc := None |}
           {| from := lit "alice@x.com";
              to := [lit "bot@x.com"; lit "carol@x.com"];
              cc := [lit "BOT@x.com"]; bodyText := lit "hello";
              bodyHtml := []; attachments := 0 |}
           (lit "hello")).
  - apply ascii_lower_idempotent.
  - vm_compute. reflexivity.
Defined.

(** *** The handler and the dedupe cache *)

Import Dedupe DedupeFacts DedupeLaws.

#[local] Open Scope Z_scope.

Lemma dedupe_key_truthy (accountId messageId : jsstring) :
  falsy (dedupe_key accountId messageId) = false.
Proof.
  unfold dedupe_key. destruct accountId; reflexivity.
Qed.

Lemma dedupe_key_inj (accountId m1 m2 : jsstring) :
  dedupe_key accountId m1 = dedupe_key accountId m2 -> m1 = m2.
Proof.
  unfold dedupe_key. intros E. apply app_inv_head in E. now injection E.
Qed.

Lemma map_get_of_In (key : jsstring) (t : Z) (c : cache) :
  NoDup (map fst c) -> In (key, t) c -> map_get key c = Some t.
Proof.
  intros Hnd Hin. apply in_split in Hin as (l1 & l2 & ->).
  rewrite map_get_app_absent.
  - unfold map_get. simpl. now rewrite eqb_refl.
  - apply (absent_of_NoDup (key, t) l1 l2 Hnd).
Qed.

Lemma map_get_map_delete_other (k key : jsstring) (c : cache) :
  k <> key -> map_get key (map_delete k c) = map_get key c.
Proof.
  intros Hne. unfold map_get, map_delete.
  induction c as [|e c IH]; simpl; [reflexivity|].
  destruct (JsString.eqb (fst e) k) eqn:Ek; simpl.
  - apply eqb_eq in Ek.
    assert (E : JsString.eqb (fst e) key = false)
      by (apply eqb_neq; congruence).
    now rewrite E.
  - destruct (JsString.eqb (fst e) key); [reflexivity | exact IH].
Qed.

Lemma map_get_app_other (k key : jsstring) (t : Z) (c : cache) :
  k <> key -> map_get key (c ++ [(k, t)]) = map_get key c.
Proof.
  intros Hne. apply eqb_neq in Hne. unfold map_get.
  induction c as [|e c IH]; simpl; [now rewrite Hne|].
  destruct (JsString.eqb (fst e) key); [reflexivity | exact IH].
Qed.

(** [touch] sets the time of its key and leaves every other key alone. *)
Lemma map_get_touch (k key : jsstring) (t : Z) (c : cache) :
  map_get key (touch k t c)
  = if JsString.eqb k key then Some t else map_get key c.
Proof.
  rewrite touch_spec. destruct (JsString.eqb k key) eqn:E.
  - apply eqb_eq in E. subst. apply map_get_last, absent_map_delete.
  - apply eqb_neq in E. rewrite <- (map_get_map_delete_other k key c E).
    apply map_get_app_other, E.
Qed.

Lemma pending_ids_NoDup (o : options) (accountId : jsstring)
    (clock : nat -> Z) (messageIds : list jsstring) (n : nat) (c : cache) :
  NoDup (map fst c) ->
  NoDup (map fst (snd (pending_ids o accountId clock n messageIds c))).
Proof.
  revert n c. induction messageIds as [|m ms IH]; intros n c H;
    cbn [pending_ids snd]; [exact H|].
  now apply IH, check_NoDup.
Qed.

(** Ids that the cache does not hold are all pending. *)
Lemma pending_all_new (o : options) (accountId : jsstring)
    (clock : nat -> Z) (messageIds : list jsstring) (n : nat) (c : cache) :
  NoDup messageIds ->
  (forall m, In m messageIds -> map_get (dedupe_key accountId m) c = None) ->
  fst (pending_ids o accountId clock n messageIds c) = messageIds.
Proof.
  revert n c. induction messageIds as [|m ms IH]; intros n c Hnd Hnew;
    cbn [pending_ids fst]; [reflexivity|].
  inversion Hnd as [|? ? Hnin Hnd']; subst.
  rewrite (check_absent o _ (clock n) c (Hnew m (or_introl eq_refl))).
  f_equal. apply IH; [exact Hnd'|]. intros m' Hm'.
  destruct (map_get (dedupe_key accountId m') _) as [t|] eqn:E;
    [|reflexivity].
  apply map_get_In, check_In in E as [E|[E _]].
  - assert (Ha : map_get (dedupe_key accountId m') c = None)
      by (apply Hnew; now right).
    apply map_get_None in Ha. unfold absent in Ha.
    rewrite Forall_forall in Ha. now elim (Ha _ E).
  - simpl in E. injection E as E. apply dedupe_key_inj in E. now subst.
Qed.

Lemma process_pending_all (completes : jsstring -> bool)
    (pending : list jsstring) :
  (forall m, In m pending -> completes m = true) ->
  process_pending completes pending = (pending, true).
Proof.
  induction pending as [|m ms IH]; intros H; simpl; [reflexivity|].
  rewrite (H m (or_introl eq_refl)), IH by (intros x Hx; apply H; now right).
  reflexivity.
Qed.

Lemma extract_NoDup (payload : jsvalue) :
  NoDup (extractInboundMessageIds payload).
Proof. rewrite extract_candidates. apply push_all_NoDup. constructor. Qed.

(** X16. Without a client the handler records nothing in the dedupe cache and
    processes nothing, whatever the payload: the notification can be
    delivered again later and will be processed then. *)
Theorem no_client_no_trace (accountId : jsstring) (w : surroundings)
    (payload : jsvalue) (c : cache) :
  client_available w = false ->
  snd (handle accountId w payload c) = c
  /\ snd (fst (handle accountId w payload c)) = []
  /\ (fst (fst (handle accountId w payload c)) = SkippedNoMessageId
      \/ fst (fst (handle accountId w payload c)) = ClientNotAvailable).
Proof.
  intros Hc. unfold handle. rewrite Hc. simpl.
  destruct (is_nil (extractInboundMessageIds payload) && no_history _);
    simpl; auto.
Qed.

Lemma no_client_no_trace_witness :
  let w := {| client_available := false; getHistory := fun _ => None;
              completes := fun _ => true; clock := fun _ => 0 |} in
  let payload := JObject [(lit "messageId", JString (lit "m1"))] in
  snd (handle (lit "default") w payload []) = []
  /\ snd (fst (handle (lit "default") w payload [])) = []
  /\ (fst (fst (handle (lit "default") w payload [])) = SkippedNoMessageId
      \/ fst (fst (handle (lit "default") w payload [])) = ClientNotAvailable).
Proof.
  apply (no_client_no_trace (lit "default")
           {| client_available := false; getHistory := fun _ => None;
              completes := fun _ => true; clock := fun _ => 0 |}
           (JObject [(lit "messageId", JString (lit "m1"))]) []).
  reflexivity.
Defined.

(** X17. A payload that is not an object (null, a string, a number, an array) is
    answered "no messageId"; the cache is left alone and the client is not
    even asked for. *)
Theorem non_object_payload_skipped (accountId : jsstring) (w : surroundings)
    (payload : jsvalue) (c : cache) :
  asRecord payload = None ->
  handle accountId w payload c = (SkippedNoMessageId, [], c).
Proof.
  intros H. unfold handle, extractInboundMessageIds, resolveInboundHistoryId,
    collectMessageIdsFromNode. now rewrite H.
Qed.

Lemma non_object_payload_skipped_witness :
  let w := {| client_available := true; getHistory := fun _ => None;
              completes := fun _ => true; clock := fun _ => 0 |} in
  handle (lit "default") w (JArray [JString (lit "m1")]) []
  = (SkippedNoMessageId, [], []).
Proof.
  apply (non_object_payload_skipped (lit "default")
           {| client_available := true; getHistory := fun _ => None;
              completes := fun _ => true; clock := fun _ => 0 |}
           (JArray [JString (lit "m1")]) []).
  reflexivity.
Defined.

(** X18. When a client is there, the payload names message ids, the cache holds
    none of their keys and processing completes for each, the handler
    processes every id once, in the order of the payload, and answers with
    their number. *)
Theorem new_messages_all_processed (accountId : jsstring) (w : surroundings)
    (payload : jsvalue) (c : cache) :
  client_available w = true ->
  extractInboundMessageIds payload <> [] ->
  (forall m, In m (extractInboundMessageIds payload) ->
             map_get (dedupe_key accountId m) c = None) ->
  (forall m, In m (extractInboundMessageIds payload) -> completes w m = true) ->
  fst (handle accountId w payload c)
  = (ProcessedOk (length (extractInboundMessageIds payload)),
     extractInboundMessageIds payload).
Proof.
  intros Hc Hne Hnew Hok. unfold handle. rewrite Hc.
  destruct (extractInboundMessageIds payload) as [|m ms] eqn:E;
    [congruence|].
  cbn [is_nil andb negb].
  rewrite (pending_all_new recentInboundMessages accountId (clock w)
             (m :: ms) 0 c).
  - cbn [is_nil]. rewrite process_pending_all by exact Hok. reflexivity.
  - rewrite <- E. apply extract_NoDup.
  - exact Hnew.
Qed.

Lemma new_messages_all_processed_witness :
  let w := {| client_available := true; getHistory := fun _ => None;
              completes := fun _ => true; clock := fun n => Z.of_nat n |} in
  let payload :=
    JObject [(lit "messageIds", JArray [JString (lit "m1");
                                         JString (lit "m2")])] in
  fst (handle (lit "default") w payload [(lit "default:m0", 0)])
  = (ProcessedOk (length (extractInboundMessageIds payload)),
     extractInboundMessageIds payload).
Proof.
  apply (new_messages_all_processed (lit "default")
           {| client_available := true; getHistory := fun _ => None;
              completes := fun _ => true; clock := fun n => Z.of_nat n |}
           (JObject [(lit "messageIds", JArray [JString (lit "m1");
                                                JString (lit "m2")])])
           [(lit "default:m0", 0)]).
  - reflexivity.
  - vm_compute. discriminate.
  - vm_compute. intros m [<-|[<-|[]]]; reflexivity.
  - reflexivity.
Defined.

(** *** Redelivery *)

Lemma stamped_In (accountId : jsstring) (clock : nat -> Z)
    (messageIds : list jsstring) (n : nat) (m : jsstring) :
  In m messageIds ->
  exists i, (n <= i < n + length messageIds)%nat
            /\ In (dedupe_key accountId m, clock i)
                 (stamped accountId clock n messageIds).
Proof.
  revert n. induction messageIds as [|m0 ms IH]; intros n; [intros []|].
  intros [->|H].
  - exists n. split; [simpl; lia | now left].
  - destruct (IH (S n) H) as (i & Hi & Hin). exists i.
    split; [simpl; lia | now right].
Qed.

(** The first pass over the ids of a delivery: when they fit the limit and
    the clock stays within one retention time, the cache ends with the ids
    of the delivery, each stamped with the reading of its check. *)
Lemma pending_cache (o : options) (accountId : jsstring) (clock : nat -> Z)
    (lo hi : Z) (messageIds : list jsstring) (n : nat) (pre suf : cache) :
  NoDup (map fst (pre ++ suf)) -> NoDup messageIds ->
  (forall m, In m messageIds -> absent (dedupe_key accountId m) suf) ->
  map_size suf + Z.of_nat (length messageIds) <= maxSize o ->
  hi - lo <= ttlMs o ->
  Forall (fun e => lo <= snd e) suf ->
  (forall i, (n <= i < n + length messageIds)%nat -> lo <= clock i <= hi) ->
  exists pre',
    snd (pending_ids o accountId clock n messageIds (pre ++ suf))
    = pre' ++ suf ++ stamped accountId clock n messageIds.
Proof.
  revert n pre suf.
  induction messageIds as [|m ms IH];
    intros n pre suf Hnd Hids Habs Hsize Hspan Hlo Hclock.
  - exists pre. simpl. now rewrite app_nil_r.
  - cbn [pending_ids snd stamped].
    inversion Hids as [|? ? Hnin Hids']; subst.
    assert (Hm : absent (dedupe_key accountId m) suf)
      by (apply Habs; now left).
    assert (Hn : lo <= clock n <= hi) by (apply Hclock; simpl; lia).
    destruct (check_keeps_suffix o (dedupe_key accountId m) (clock n) pre suf
                Hnd (dedupe_key_truthy accountId m)) as (pre' & E & _).
    + rewrite (map_delete_absent _ suf Hm). simpl in Hsize. lia.
    + right. eapply Forall_impl; [|exact Hlo]. simpl. intros e He. lia.
    + assert (Hnd' : NoDup (map fst (snd (check o
                        (Some (dedupe_key accountId m)) (clock n)
                        (pre ++ suf)))))
        by now apply check_NoDup.
      rewrite E, (map_delete_absent _ suf Hm) in *.
      rewrite app_assoc in Hnd'.
      replace (pre' ++ suf ++ [(dedupe_key accountId m, clock n)])
        with (pre' ++ (suf ++ [(dedupe_key accountId m, clock n)]))
        by reflexivity.
      destruct (IH (S n) pre' (suf ++ [(dedupe_key accountId m, clock n)]))
        as (pre'' & E').
      * now rewrite app_assoc.
      * exact Hids'.
      * intros m' Hm'. apply Forall_app. split; [apply Habs; now right|].
        repeat constructor. simpl. intros Ek. apply dedupe_key_inj in Ek.
        now subst.
      * unfold map_size in *. rewrite length_app. simpl in *. lia.
      * exact Hspan.
      * apply Forall_app. split; [exact Hlo|]. repeat constructor. simpl. lia.
      * intros i Hi. apply Hclock. simpl. lia.
      * exists pre''. rewrite E'. now rewrite <- !app_assoc.
Qed.

(** The second pass: ids whose keys the cache holds with times inside the
    window of every reading are all duplicates. *)
Lemma pending_all_seen (o : options) (accountId : jsstring)
    (clock : nat -> Z) (lo : Z) (messageIds : list jsstring) (n : nat)
    (c : cache) :
  (forall m, In m messageIds ->
             exists t, map_get (dedupe_key accountId m) c = Some t /\ lo <= t) ->
  (forall i, (n <= i < n + length messageIds)%nat ->
             lo <= clock i < lo + ttlMs o) ->
  fst (pending_ids o accountId clock n messageIds c) = [].
Proof.
  revert n c. induction messageIds as [|m ms IH]; intros n c Hseen Hclock;
    cbn [pending_ids fst]; [reflexivity|].
  destruct (Hseen m (or_introl eq_refl)) as (t & Hg & Ht).
  assert (Hn : lo <= clock n < lo + ttlMs o) by (apply Hclock; simpl; lia).
  assert (Hfresh : ((ttlMs o <=? 0) || (clock n - t <? ttlMs o)) = true).
  { apply orb_true_iff. right. apply Z.ltb_lt. lia. }
  assert (Hcheck : check o (Some (dedupe_key accountId m)) (clock n) c
                   = (true, touch (dedupe_key accountId m) (clock n) c)).
  { unfold check. now rewrite dedupe_key_truthy, Hg, Hfresh. }
  rewrite Hcheck. cbn [fst snd]. apply IH.
  - intros m' Hm'. rewrite map_get_touch.
    destruct (JsString.eqb _ _); [|apply Hseen; now right].
    exists (clock n). split; [reflexivity | lia].
  - intros i Hi. apply Hclock. simpl. lia.
Qed.

(** The cache after a call of the handler that got as far as the dedupe
    filter on the payload's own ids. *)
Lemma handle_cache (accountId : jsstring) (w : surroundings)
    (payload : jsvalue) (c : cache) :
  client_available w = true ->
  extractInboundMessageIds payload <> [] ->
  snd (handle accountId w payload c)
  = snd (pending_ids recentInboundMessages accountId (clock w) 0
           (extractInboundMessageIds payload) c).
Proof.
  intros Hc Hne. unfold handle. rewrite Hc.
  destruct (extractInboundMessageIds payload) as [|m ms]; [congruence|].
  cbn [is_nil andb negb].
  now destruct (is_nil (fst (pending_ids _ _ _ _ _ _))).
Qed.

(** X19. A notification that is delivered a second time within the retention
    time of ten minutes is answered "duplicate" and none of its messages is
    processed again.  The first delivery may have found any cache that
    earlier checks lead to; it names at most [RECENT_MESSAGE_MAX] ids; all
    clock readings of the two deliveries lie in one interval shorter than
    the retention time.  Whether processing completed in the first delivery
    plays no part: the ids are recorded before any message is processed. *)
Theorem redelivery_is_duplicate (accountId : jsstring) (w1 w2 : surroundings)
    (history : list (option jsstring * Z)) (payload : jsvalue) (lo : Z) :
  client_available w1 = true -> client_available w2 = true ->
  extractInboundMessageIds payload <> [] ->
  Z.of_nat (length (extractInboundMessageIds payload)) <= RECENT_MESSAGE_MAX ->
  (forall i, (i < length (extractInboundMessageIds payload))%nat ->
             lo <= clock w1 i < lo + RECENT_MESSAGE_TTL_MS
             /\ lo <= clock w2 i < lo + RECENT_MESSAGE_TTL_MS) ->
  fst (handle accountId w2 payload
         (snd (handle accountId w1 payload
                 (run recentInboundMessages history []))))
  = (SkippedDuplicate, []).
Proof.
  intros Hc1 Hc2 Hne Hlen Hclock.
  set (ids := extractInboundMessageIds payload) in *.
  set (c0 := run recentInboundMessages history []).
  assert (Hnd0 : NoDup (map fst c0)) by (apply run_NoDup; constructor).
  rewrite (handle_cache accountId w1 payload c0 Hc1 Hne). fold ids.
  destruct (pending_cache recentInboundMessages accountId (clock w1)
              lo (lo + RECENT_MESSAGE_TTL_MS) ids 0 c0 [])
    as (pre' & E).
  - now rewrite app_nil_r.
  - apply extract_NoDup.
  - intros m _. constructor.
  - unfold map_size. simpl. exact Hlen.
  - unfold ttlMs, recentInboundMessages, RECENT_MESSAGE_TTL_MS. simpl. lia.
  - constructor.
  - intros i Hi. destruct (Hclock i) as [H _]; [lia|]. lia.
  - rewrite app_nil_r in E. cbn [app] in E.
    assert (Hnd1 : NoDup (map fst (pre' ++ stamped accountId (clock w1) 0 ids))).
    { rewrite <- E. now apply pending_ids_NoDup. }
    rewrite E.
    assert (Hp : fst (pending_ids recentInboundMessages accountId (clock w2)
                        0 ids (pre' ++ stamped accountId (clock w1) 0 ids))
                 = []).
    { apply (pending_all_seen recentInboundMessages accountId (clock w2) lo).
      - intros m Hm.
        destruct (stamped_In accountId (clock w1) ids 0 m Hm) as (i & Hi & Hin).
        exists (clock w1 i). split.
        + apply map_get_of_In; [exact Hnd1|]. apply in_or_app. now right.
        + destruct (Hclock i) as [H _]; [lia|]. lia.
      - intros i Hi. destruct (Hclock i) as [_ H]; [lia|]. exact H. }
    unfold handle. rewrite Hc2. fold ids.
    destruct ids as [|m ms]; [congruence|].
    cbn [is_nil andb negb]. now rewrite Hp.
Qed.

Lemma redelivery_is_duplicate_witness :
  let w := {| client_available := true; getHistory := fun _ => None;
              completes := fun _ => true; clock := fun n => Z.of_nat n |} in
  let payload :=
    JObject [(lit "messageIds", JArray [JString (lit "m1");
                                         JString (lit "m2")])] in
  fst (handle (lit "default") w payload
         (snd (handle (lit "default") w payload
                 (run recentInboundMessages
                    [(Some (lit "default:m0"), 0)] []))))
  = (SkippedDuplicate, []).
Proof.
  apply (redelivery_is_duplicate (lit "default")
           {| client_available := true; getHistory := fun _ => None;
              completes := fun _ => true; clock := fun n => Z.of_nat n |}
           {| client_available := true; getHistory := fun _ => None;
              completes := fun _ => true; clock := fun n => Z.of_nat n |}
           [(Some (lit "default:m0"), 0)]
           (JObject [(lit "messageIds", JArray [JString (lit "m1");
                                                JString (lit "m2")])])
           0).
  - reflexivity.
  - reflexivity.
  - vm_compute. discriminate.
  - vm_compute. discriminate.
  - intros i Hi. cbn [clock]. unfold RECENT_MESSAGE_TTL_MS.
    change (length _) with 2%nat in Hi. lia.
Defined.

End MonitorLaws.

Module AccountsLaws.
Import Accounts JsStringFacts.

Section ResolveLaws.
Variable normalizeAccountId : option jsstring -> jsstring.


Lemma trimmed_or_undefined_clean (value : option jsstring) :
  absent_or_clean (trimmed_or_undefined value).
Proof.
  destruct value as [s|]; simpl; [|exact I].
  destruct (falsy (trim s)) eqn:E; simpl; [exact I|].
  split; [now apply falsy_false | apply trim_idempotent].
Qed.

(** X21. The name, Gmail address, credentials path, token path and project id
    of a resolved account are each absent or a trimmed string that is not
    empty: a blank setting counts as not set. *)
Theorem resolved_strings_clean (cfg : option EmailConfig)
    (requested : option jsstring) :
  let r := resolveEmailAccount normalizeAccountId cfg requested in
  absent_or_clean (resolved_name r)
  /\ absent_or_clean (resolved_gmailAddress r)
  /\ absent_or_clean (resolved_credentialsPath r)
  /\ absent_or_clean (resolved_tokenPath r)
  /\ absent_or_clean (resolved_projectId r).
Proof. repeat split; apply trimmed_or_undefined_clean. Qed.

End ResolveLaws.

End AccountsLaws.

Module ClientLaws.
Import Client JsStringFacts.

(** Induction on a part with the property at hand for all its children. *)
Lemma MessagePart_induction (P : MessagePart -> Prop) :
  (forall m f d a s ps,
      match ps with Some children => Forall P children | None => True end ->
      P (Part m f d a s ps)) ->
  forall p, P p.
Proof.
  intros H. fix IH 1. intros [m f d a s ps]. apply H.
  destruct ps as [children|]; [|exact I].
  induction children as [|c cs IHcs]; constructor; [apply IH | exact IHcs].
Qed.




Section BodyLaws.
Context {C : JsCase}.
Variable decodeBase64Url : jsstring -> jsstring.

Lemma take_body_keeps (p : MessagePart) (r : bodies) :
  (text r = [] \/ text (take_body decodeBase64Url p r) = text r)
  /\ (html r = [] \/ html (take_body decodeBase64Url p r) = html r).
Proof.
  unfold take_body.
  destruct (text r) as [|c t] eqn:Et; destruct (html r) as [|c' h] eqn:Eh;
    cbn [falsy]; rewrite ?andb_false_r, ?andb_true_r;
    repeat match goal with
           | |- context [if ?b then _ else _] => destruct b
           end; cbn [text html]; auto.
Qed.

Lemma walk_part_preorder (p : MessagePart) (r : bodies) :
  walk_part decodeBase64Url p r
  = fold_left (fun acc q => take_body decodeBase64Url q acc) (preorder p) r.
Proof.
  revert r. induction p as [m f d a s ps Hps] using MessagePart_induction.
  intros r. cbn [walk_part preorder fold_left].
  destruct ps as [children|]; [|reflexivity].
  generalize (take_body decodeBase64Url (Part m f d a s (Some children)) r).
  induction Hps as [|c cs Hc _ IH]; intros r'; [reflexivity|].
  cbn [fold_left flat_map]. now rewrite fold_left_app, Hc, IH.
Qed.

Lemma fold_take_body_keeps (ps : list MessagePart) (r : bodies) :
  (text r = []
   \/ text (fold_left (fun acc q => take_body decodeBase64Url q acc) ps r)
      = text r)
  /\ (html r = []
      \/ html (fold_left (fun acc q => take_body decodeBase64Url q acc) ps r)
         = html r).
Proof.
  revert r. induction ps as [|p ps IH]; intros r; cbn [fold_left]; [auto|].
  destruct (take_body_keeps p r) as [Ht Hh].
  destruct (IH (take_body decodeBase64Url p r)) as [Ht' Hh'].
  split.
  - destruct Ht as [Ht|Ht]; [now left|].
    destruct Ht' as [Ht'|Ht']; [left | right]; congruence.
  - destruct Hh as [Hh|Hh]; [now left|].
    destruct Hh' as [Hh'|Hh']; [left | right]; congruence.
Qed.

(** X23. The walk over the parts visits them in order, nested parts right after
    their parent, and the first body found stays: a text that is already
    there is never replaced by a later part, and neither is an HTML body. *)
Theorem first_body_wins (parts : option (list MessagePart)) (r : bodies) :
  extractBodyParts decodeBase64Url parts r
  = fold_left (fun acc q => take_body decodeBase64Url q acc) (all_parts parts) r
  /\ (text r = [] \/ text (extractBodyParts decodeBase64Url parts r) = text r)
  /\ (html r = [] \/ html (extractBodyParts decodeBase64Url parts r) = html r).
Proof.
  assert (E : extractBodyParts decodeBase64Url parts r
              = fold_left (fun acc q => take_body decodeBase64Url q acc)
                  (all_parts parts) r).
  { destruct parts as [ps|]; [|reflexivity]. cbn [extractBodyParts all_parts].
    revert r. induction ps as [|p ps IH]; intros r; [reflexivity|].
    cbn [fold_left flat_map]. now rewrite fold_left_app, walk_part_preorder, IH. }
  split; [exact E|]. rewrite E. apply fold_take_body_keeps.
Qed.

End BodyLaws.

End ClientLaws.
